(** * Hamming (2^r - 1, 2^r - r - 1) codes: a model of [Hamming.py]

    The class [HammingCode] of [Hamming.py] is embedded method by method.
    Python integers are [Z], Python lists of integers are [list Z], a
    raised exception is the [Raise] branch of [result].  The loops of the
    source are recursive functions over the list the loop iterates on,
    with the loop's local variables as arguments. *)

From stdpp Require Import base numbers list gmap strings.

Local Open Scope Z_scope.

(** ** Exceptions and results *)

(** The messages of the exceptions the class can raise: the two f-strings
    of [encode] and [decode] (with the number they interpolate), the
    message of [simulate_error], and the interpreter's own message for a
    list subscript outside the list. *)
Inductive message : Type :=
  | Data_length_must_be (expected : Z)
  | Codeword_length_must_be (expected : Z)
  | Position_out_of_range
  | list_index_out_of_range.

Inductive exn : Type :=
  | ValueError (msg : message)
  | IndexError (msg : message).

Inductive result (A : Type) : Type :=
  | Ok (a : A)
  | Raise (e : exn).

Arguments Ok {A} a.
Arguments Raise {A} e.

Global Instance result_ret : MRet result := @Ok.

Global Instance result_bind : MBind result := λ A B f m,
  match m with
  | Ok a => f a
  | Raise e => Raise e
  end.

Global Instance result_fmap : FMap result := λ A B f m,
  match m with
  | Ok a => Ok (f a)
  | Raise e => Raise e
  end.

(** ** Python built-ins used by the class *)

(** [range(a, b)] *)
Definition range (a b : Z) : list Z := seqZ a (b - a).

(** [sum(bits)]: left to right, starting from 0. *)
Definition py_sum (bits : list Z) : Z := fold_left Z.add bits 0.

(** The list slot a subscript [i] denotes in a list of [len] elements:
    a negative subscript counts from the end, anything outside
    [-len .. len-1] is an [IndexError]. *)
Definition py_index (len : nat) (i : Z) : option nat :=
  if decide (0 ≤ i) then
    if decide (i < Z.of_nat len) then Some (Z.to_nat i) else None
  else
    if decide (- Z.of_nat len ≤ i) then Some (Z.to_nat (Z.of_nat len + i)) else None.

(** [l[i]] *)
Definition getitem (l : list Z) (i : Z) : result Z :=
  match py_index (length l) i ≫= (l !!.) with
  | Some x => Ok x
  | None => Raise (IndexError list_index_out_of_range)
  end.

(** [l[i] = v] *)
Definition setitem (l : list Z) (i v : Z) : result (list Z) :=
  match py_index (length l) i with
  | Some m => Ok (<[m:=v]> l)
  | None => Raise (IndexError list_index_out_of_range)
  end.

(** [l[i] ^= 1] *)
Definition xor1_item (l : list Z) (i : Z) : result (list Z) :=
  x ← getitem l i; setitem l i (Z.lxor x 1).

(** ** The class *)

Record HammingCode : Type := {
  r : Z;
  n : Z;
  k : Z;
  parity_positions : list Z
}.

(** [__init__].  There is no [raise] in the constructor.  For [r < 0]
    Python evaluates [2**r] in floating point; the fields are integers
    here, so every statement below about an instance takes [0 ≤ r]. *)
Definition __init__ (r : Z) : result HammingCode :=
  Ok {| r := r;
        n := 2 ^ r - 1;
        k := (2 ^ r - 1) - r;
        parity_positions := (λ i, 2 ^ i) <$> range 0 r |}.

(** The positions a parity check at [p] reads: the [i] of [range(1, n+1)]
    with [i & p] true. *)
Definition covered (n p : Z) : list Z :=
  filter (λ i, Z.land i p ≠ 0) (range 1 (n + 1)).

(** The positions that carry data: the [i] of [range(1, n+1)] with
    [i not in parity_positions]. *)
Definition data_positions (n : Z) (parity_positions : list Z) : list Z :=
  filter (λ i, i ∉ parity_positions) (range 1 (n + 1)).

(** The first loop of [encode], over [range(1, n+1)], with the locals
    [code] and [j]. *)
Fixpoint place_data (parity_positions data_bits positions code : list Z) (j : Z)
    : result (list Z) :=
  match positions with
  | [] => Ok code
  | i :: positions =>
      if decide (i ∉ parity_positions) then
        b ← getitem data_bits j;
        code ← setitem code i b;
        place_data parity_positions data_bits positions code (j + 1)
      else place_data parity_positions data_bits positions code j
  end.

(** The second loop of [encode], over [parity_positions]. *)
Fixpoint compute_parity (n : Z) (ps code : list Z) : result (list Z) :=
  match ps with
  | [] => Ok code
  | p :: ps =>
      bits ← mapM (getitem code) (covered n p);
      code ← setitem code p (py_sum bits `mod` 2);
      compute_parity n ps code
  end.

Definition encode (self : HammingCode) (data_bits : list Z) : result (list Z) :=
  if decide (Z.of_nat (length data_bits) ≠ k self) then
    Raise (ValueError (Data_length_must_be (k self)))
  else
    let code := replicate (Z.to_nat (n self + 1)) 0 in
    code ← place_data (parity_positions self) data_bits (range 1 (n self + 1)) code 0;
    code ← compute_parity (n self) (parity_positions self) code;
    Ok (drop 1 code).

(** The syndrome loop of [decode], over [parity_positions], with the local
    [syndrome]. *)
Fixpoint compute_syndrome (n : Z) (codeword ps : list Z) (syndrome : Z) : result Z :=
  match ps with
  | [] => Ok syndrome
  | p :: ps =>
      bits ← mapM (λ i, getitem codeword (i - 1)) (covered n p);
      if decide (py_sum bits `mod` 2 ≠ 0)
      then compute_syndrome n codeword ps (syndrome + p)
      else compute_syndrome n codeword ps syndrome
  end.

(** The last comprehension of [decode]. *)
Definition extract_data (self : HammingCode) (code : list Z) : result (list Z) :=
  mapM (λ i, getitem code (i - 1)) (data_positions (n self) (parity_positions self)).

(** [decode] on list values: [codeword.copy()] is the value itself, the
    aliasing it avoids is the subject of the store model further down. *)
Definition decode (self : HammingCode) (codeword : list Z) : result (list Z * bool) :=
  if decide (Z.of_nat (length codeword) ≠ n self) then
    Raise (ValueError (Codeword_length_must_be (n self)))
  else
    syndrome ← compute_syndrome (n self) codeword (parity_positions self) 0;
    let code := codeword in
    '(code, corrected) ←
      (if decide (syndrome ≠ 0)
       then code ← xor1_item code (syndrome - 1); Ok (code, true)
       else Ok (code, false));
    data ← extract_data self code;
    Ok (data, corrected).

Definition simulate_error (self : HammingCode) (codeword : list Z) (pos : Z)
    : result (list Z) :=
  if decide (pos < 1 ∨ pos > n self) then
    Raise (IndexError Position_out_of_range)
  else
    let cw := codeword in
    xor1_item cw (pos - 1).

(** ** Store model: lists as objects

    A Python list is an object reached through a reference, and
    [l[i] ^= 1] changes the object every holder of the reference sees.
    For the two methods that update a list in place after [.copy()], the
    store is explicit: a finite map from references to list contents.
    Both methods only read their argument, so its content is looked up
    once; a reference a caller holds is always allocated. *)

Abbreviation loc := positive.
Abbreviation store := (gmap loc (list Z)).

(** [l.copy()]: a new object with the same content. *)
Definition copy (l : loc) (σ : store) : loc * store :=
  let l' := fresh (dom σ) in (l', <[l':=σ !!! l]> σ).

(** A list display or comprehension: a new object. *)
Definition new_list (v : list Z) (σ : store) : loc * store :=
  let l' := fresh (dom σ) in (l', <[l':=v]> σ).

(** [l[i] ^= 1] on the object [l] *)
Definition xor1_at (l : loc) (i : Z) (σ : store) : result unit * store :=
  match xor1_item (σ !!! l) i with
  | Ok v => (Ok (), <[l:=v]> σ)
  | Raise e => (Raise e, σ)
  end.

Definition simulate_error_st (self : HammingCode) (codeword : loc) (pos : Z) (σ : store)
    : result loc * store :=
  if decide (pos < 1 ∨ pos > n self) then
    (Raise (IndexError Position_out_of_range), σ)
  else
    let '(cw, σ) := copy codeword σ in
    match xor1_at cw (pos - 1) σ with
    | (Ok _, σ) => (Ok cw, σ)
    | (Raise e, σ) => (Raise e, σ)
    end.

Definition decode_st (self : HammingCode) (codeword : loc) (σ : store)
    : result (loc * bool) * store :=
  if decide (Z.of_nat (length (σ !!! codeword)) ≠ n self) then
    (Raise (ValueError (Codeword_length_must_be (n self))), σ)
  else
    match compute_syndrome (n self) (σ !!! codeword) (parity_positions self) 0 with
    | Raise e => (Raise e, σ)
    | Ok syndrome =>
        let '(code, σ) := copy codeword σ in
        let '(corrected, σ) :=
          if decide (syndrome ≠ 0)
          then (let '(res, σ) := xor1_at code (syndrome - 1) σ in (const true <$> res, σ))
          else (Ok false, σ) in
        match corrected with
        | Raise e => (Raise e, σ)
        | Ok corrected =>
            match extract_data self (σ !!! code) with
            | Raise e => (Raise e, σ)
            | Ok data =>
                let '(data, σ) := new_list data σ in
                (Ok (data, corrected), σ)
            end
        end
    end.

(** ** Visualization methods: the calls handed to matplotlib

    [plot_structure] and [plot_error_simulation] compute lists and hand
    them to [matplotlib.pyplot].  The drawing itself is outside the class;
    what the class decides is the sequence of calls and their arguments,
    and that sequence is the model: a method returns the calls it issued,
    in order, and how it ended.  The two f-strings are kept as the text
    with the numbers they interpolate. *)

Inductive text : Type :=
  | Literal (s : string)
  | Hamming_n_k_Structure (n k : Z)
  | Corrupted_Codeword_Error_at_position (i : Z).

Inductive plt_call : Type :=
  | plt_figure
  | plt_bar (x height : list Z) (color : list string)
  | plt_xticks (ticks : list Z)
  | plt_xlabel (label : text)
  | plt_title (label : text)
  | plt_subplots (nrows ncols : Z) (figsize : Z * Z)
  | axes_bar (axis : Z) (x height : list Z)
  | axes_set_title (axis : Z) (label : text)
  | plt_tight_layout
  | plt_show.

Definition plot_structure (self : HammingCode) : list plt_call :=
  let positions := range 1 (n self + 1) in
  let types :=
    (λ pos, if decide (pos ∈ parity_positions self) then "Parity" else "Data")
      <$> positions in
  let colors := (λ t, if decide (t = "Parity") then "red" else "blue") <$> types in
  [ plt_figure;
    plt_bar positions (replicate (Z.to_nat (n self)) 1) colors;
    plt_xticks positions;
    plt_xlabel (Literal "Bit Position");
    plt_title (Hamming_n_k_Structure (n self) (k self));
    plt_show ].

(** The calls of one turn of the loop of [plot_error_simulation]. *)
Definition error_figure (positions orig err corrected_codeword : list Z) (i : Z)
    : list plt_call :=
  [ plt_subplots 3 1 (8, 6);
    axes_bar 0 positions orig;
    axes_set_title 0 (Literal "Original Codeword");
    axes_bar 1 positions err;
    axes_set_title 1 (Corrupted_Codeword_Error_at_position i);
    axes_bar 2 positions corrected_codeword;
    axes_set_title 2 (Literal "Corrected Codeword");
    plt_tight_layout;
    plt_show ].

(** The loop of [plot_error_simulation], over [todo], the rest of
    [positions]: the calls issued until the loop ends or raises. *)
Fixpoint error_simulation_loop (self : HammingCode) (orig positions todo : list Z)
    : list plt_call * result unit :=
  match todo with
  | [] => ([], Ok ())
  | i :: todo =>
      match simulate_error self orig i with
      | Raise e => ([], Raise e)
      | Ok err =>
          match decode self err with
          | Raise e => ([], Raise e)
          | Ok (decoded_data, corrected) =>
              match encode self decoded_data with
              | Raise e => ([], Raise e)
              | Ok corrected_codeword =>
                  let '(calls, res) := error_simulation_loop self orig positions todo in
                  (error_figure positions orig err corrected_codeword i ++ calls, res)
              end
          end
      end
  end.

Definition plot_error_simulation (self : HammingCode) (data_bits : list Z)
    : list plt_call * result unit :=
  match encode self data_bits with
  | Raise e => ([], Raise e)
  | Ok orig =>
      let positions := range 1 (n self + 1) in
      error_simulation_loop self orig positions positions
  end.

(** ** Notions the statements use *)

(** The bit of a codeword at the 1-based position [i]. *)
Definition bit (codeword : list Z) (i : Z) : Z := codeword !!! Z.to_nat (i - 1).

(** The parity check at [p] over a whole codeword: the sum mod 2 of the
    bits at the positions [p] covers. *)
Definition check (n : Z) (codeword : list Z) (p : Z) : Z :=
  py_sum (bit codeword <$> covered n p) `mod` 2.

(** The codeword with the bit at the 1-based position [pos] XORed with 1. *)
Definition flip (codeword : list Z) (pos : Z) : list Z :=
  <[Z.to_nat (pos - 1):=Z.lxor (bit codeword pos) 1]> codeword.

(** The sum the syndrome loop accumulates over the positions [ps]. *)
Definition syndrome_of (n : Z) (codeword ps : list Z) : Z :=
  py_sum ((λ p, if decide (check n codeword p ≠ 0) then p else 0) <$> ps).

(** The XOR of a list of bits, left to right, starting from 0. *)
Definition py_xor (bits : list Z) : Z := fold_left Z.lxor bits 0.

(** A value that is a bit. *)
Definition is_bit (x : Z) : Prop := x = 0 ∨ x = 1.

(** ** What the methods rely on

    The facts about [n], [k] and [parity_positions] the methods use; every
    instance built by [__init__] with [0 ≤ r] has them ([init_wf]). *)
Record wf (self : HammingCode) : Prop := {
  wf_n : 0 ≤ n self;
  wf_k : Z.of_nat (length (data_positions (n self) (parity_positions self))) = k self;
  wf_range : ∀ p, p ∈ parity_positions self → 1 ≤ p ≤ n self;
  wf_nodup : NoDup (parity_positions self);
  wf_disjoint : ∀ p q,
    p ∈ parity_positions self → q ∈ parity_positions self → p ≠ q → Z.land p q = 0;
  wf_locate : ∀ e, 1 ≤ e ≤ n self →
    py_sum ((λ p, if decide (Z.land e p ≠ 0) then p else 0) <$> parity_positions self) = e;
  wf_total : py_sum (parity_positions self) = n self
}.

(** The instance [runner.py] builds, [HammingCode(r=3)]. *)
Definition ham3 : HammingCode :=
  {| r := 3; n := 7; k := 4; parity_positions := [1; 2; 4] |}.

(** * The run of [runner.py] *)

Example init3 : __init__ 3 = Ok ham3.
Proof. reflexivity. Qed.

Example enc3 : encode ham3 [1; 0; 1; 1] = Ok [0; 1; 1; 0; 0; 1; 1].
Proof. vm_compute. reflexivity. Qed.

Example dec3 :
  simulate_error ham3 [0; 1; 1; 0; 0; 1; 1] 3 ≫= decode ham3 = Ok ([1; 0; 1; 1], true).
Proof. vm_compute. reflexivity. Qed.

(** * Properties of the built-ins *)

Lemma fold_add_acc (l : list Z) (a : Z) : fold_left Z.add l a = a + fold_left Z.add l 0.
Proof.
  revert a. induction l as [|x l IH]; intros a; simpl; [lia|].
  rewrite (IH (a + x)), (IH (0 + x)). lia.
Qed.

Lemma py_sum_nil : py_sum [] = 0.
Proof. reflexivity. Qed.

Lemma py_sum_cons (x : Z) (l : list Z) : py_sum (x :: l) = x + py_sum l.
Proof. unfold py_sum. simpl. apply fold_add_acc. Qed.

Lemma py_sum_app (l1 l2 : list Z) : py_sum (l1 ++ l2) = py_sum l1 + py_sum l2.
Proof.
  induction l1 as [|x l1 IH]; simpl; [rewrite py_sum_nil; lia|].
  rewrite !py_sum_cons, IH. lia.
Qed.

Lemma py_index_nonneg (len : nat) (i : Z) :
  0 ≤ i < Z.of_nat len → py_index len i = Some (Z.to_nat i).
Proof. intros ?. unfold py_index. repeat case_decide; (done || lia). Qed.

Lemma py_index_ge (len : nat) (i : Z) : Z.of_nat len ≤ i → py_index len i = None.
Proof. intros ?. unfold py_index. repeat case_decide; (done || lia). Qed.

Lemma getitem_ok (l : list Z) (i : Z) :
  0 ≤ i < Z.of_nat (length l) → getitem l i = Ok (l !!! Z.to_nat i).
Proof.
  intros Hi. unfold getitem. rewrite py_index_nonneg by done. simpl.
  rewrite list_lookup_lookup_total_lt by lia. done.
Qed.

Lemma setitem_ok (l : list Z) (i v : Z) :
  0 ≤ i < Z.of_nat (length l) → setitem l i v = Ok (<[Z.to_nat i:=v]> l).
Proof. intros Hi. unfold setitem. by rewrite py_index_nonneg. Qed.

Lemma xor1_item_ok (l : list Z) (i : Z) :
  0 ≤ i < Z.of_nat (length l) →
  xor1_item l i = Ok (<[Z.to_nat i:=Z.lxor (l !!! Z.to_nat i) 1]> l).
Proof.
  intros Hi. unfold xor1_item. rewrite getitem_ok by done. simpl.
  by rewrite setitem_ok.
Qed.

Lemma bind_Ok {A B : Type} (a : A) (f : A → result B) : Ok a ≫= f = f a.
Proof. reflexivity. Qed.

Lemma mapM_ok (f : Z → result Z) (g : Z → Z) (l : list Z) :
  (∀ i, i ∈ l → f i = Ok (g i)) → mapM f l = Ok (g <$> l).
Proof.
  induction l as [|x l IH]; intros Hf; [done|].
  simpl. rewrite (Hf x) by left. simpl.
  rewrite IH; [done|]. intros i Hi. apply Hf. by right.
Qed.

Lemma elem_of_range (a b i : Z) : i ∈ range a b ↔ a ≤ i < b.
Proof. unfold range. rewrite elem_of_seqZ. lia. Qed.

Lemma NoDup_range (a b : Z) : NoDup (range a b).
Proof. apply NoDup_seqZ. Qed.

Lemma length_range (a b : Z) : length (range a b) = Z.to_nat (b - a).
Proof. apply length_seqZ. Qed.

(** * Powers of two and bitwise AND *)

Lemma land_pow2 (i j : Z) :
  0 ≤ j → Z.land i (2 ^ j) = if Z.testbit i j then 2 ^ j else 0.
Proof.
  intros Hj. apply Z.bits_inj'. intros m Hm.
  rewrite Z.land_spec, Z.pow2_bits_eqb by done.
  destruct (Z.eqb_spec j m) as [->|Hne].
  - rewrite andb_true_r. destruct (Z.testbit i m) eqn:E; [|by rewrite Z.bits_0].
    by rewrite Z.pow2_bits_true.
  - rewrite andb_false_r. destruct (Z.testbit i j); [|by rewrite Z.bits_0].
    by rewrite Z.pow2_bits_false.
Qed.

Lemma pow2_pos (j : Z) : 0 ≤ j → 0 < 2 ^ j.
Proof. intros. by apply Z.pow_pos_nonneg. Qed.

Lemma land_pow2_nonzero (i j : Z) :
  0 ≤ j → Z.land i (2 ^ j) ≠ 0 ↔ Z.testbit i j = true.
Proof.
  intros Hj. rewrite land_pow2 by done. pose proof (pow2_pos j Hj).
  destruct (Z.testbit i j); split; (done || lia).
Qed.

Lemma land_pow2_pow2 (i j : Z) : 0 ≤ i → 0 ≤ j → i ≠ j → Z.land (2 ^ i) (2 ^ j) = 0.
Proof.
  intros Hi Hj Hne. rewrite land_pow2 by done.
  by rewrite Z.pow2_bits_false.
Qed.

Lemma mod_pow2_succ (e : Z) (m : Z) :
  0 ≤ m → e `mod` 2 ^ (m + 1) = e `mod` 2 ^ m + (if Z.testbit e m then 2 ^ m else 0).
Proof.
  intros Hm. pose proof (pow2_pos m Hm).
  rewrite Z.pow_add_r, Z.pow_1_r by lia.
  rewrite Z.rem_mul_r by lia.
  rewrite <- Z.testbit_spec' by done.
  destruct (Z.testbit e m); simpl; lia.
Qed.

(** The parity positions whose bit is set in [e] add up to [e]. *)
Lemma pow2_bits_sum (e : Z) (m : nat) :
  py_sum ((λ p, if decide (Z.land e p ≠ 0) then p else 0) <$> ((λ i, 2 ^ i) <$> seqZ 0 (Z.of_nat m)))
  = e `mod` 2 ^ Z.of_nat m.
Proof.
  induction m as [|m IH].
  - simpl. by rewrite Z.mod_1_r.
  - rewrite seqZ_S, !fmap_app, py_sum_app, IH, Z.add_0_l. simpl.
    rewrite py_sum_cons, py_sum_nil, Nat2Z.inj_succ, <- Z.add_1_r.
    rewrite mod_pow2_succ by lia.
    destruct (decide _) as [Hd|Hd]; rewrite land_pow2_nonzero in Hd by lia.
    + rewrite Hd. lia.
    + destruct (Z.testbit e (Z.of_nat m)); [done|lia].
Qed.

(** All of them add up to [2^m - 1]. *)
Lemma pow2_sum (m : nat) :
  py_sum ((λ i, 2 ^ i) <$> seqZ 0 (Z.of_nat m)) = 2 ^ Z.of_nat m - 1.
Proof.
  induction m as [|m IH]; [done|].
  rewrite seqZ_S, fmap_app, py_sum_app, IH, Z.add_0_l. simpl.
  rewrite py_sum_cons, py_sum_nil, Nat2Z.inj_succ, <- Z.add_1_r.
  rewrite Z.pow_add_r, Z.pow_1_r by lia. lia.
Qed.

(** * Instances built by the constructor *)

Lemma elem_of_parity_positions (r0 : Z) (self : HammingCode) (p : Z) :
  __init__ r0 = Ok self →
  p ∈ parity_positions self ↔ ∃ i, 0 ≤ i < r0 ∧ p = 2 ^ i.
Proof.
  intros [= <-]. simpl. rewrite list_elem_of_fmap.
  split; intros (i & H1 & H2).
  - exists i. rewrite elem_of_range in H2. done.
  - exists i. rewrite elem_of_range. done.
Qed.

Lemma length_data_positions (nn : Z) (pp : list Z) :
  0 ≤ nn → NoDup pp → (∀ p, p ∈ pp → 1 ≤ p ≤ nn) →
  Z.of_nat (length (data_positions nn pp)) = nn - Z.of_nat (length pp).
Proof.
  intros Hn Hnd Hr.
  pose proof (filter_app_complement (λ i, i ∈ pp) (range 1 (nn + 1))) as Hp.
  apply Permutation_length in Hp. rewrite length_app, length_range in Hp.
  assert (filter (λ i, i ∈ pp) (range 1 (nn + 1)) ≡ₚ pp) as Hq.
  { apply NoDup_Permutation; [apply NoDup_filter, NoDup_range|done|].
    intros p. rewrite list_elem_of_filter, elem_of_range.
    split; [tauto|]. intros Hp'. specialize (Hr p Hp'). split; [done|lia]. }
  apply Permutation_length in Hq. rewrite Hq in Hp.
  unfold data_positions. lia.
Qed.

Lemma init_wf (r0 : Z) (self : HammingCode) :
  0 ≤ r0 → __init__ r0 = Ok self → wf self.
Proof.
  intros Hr Hinit.
  assert (Hpp : parity_positions self = (λ i, 2 ^ i) <$> seqZ 0 (Z.of_nat (Z.to_nat r0))).
  { injection Hinit as <-. simpl. unfold range. by rewrite Z.sub_0_r, Z2Nat.id. }
  assert (Hn : n self = 2 ^ r0 - 1) by (by injection Hinit as <-).
  assert (Hk : k self = 2 ^ r0 - 1 - r0) by (by injection Hinit as <-).
  pose proof (pow2_pos r0 Hr) as Hpos.
  assert (Hrange : ∀ p, p ∈ parity_positions self → 1 ≤ p ≤ n self).
  { intros p. rewrite (elem_of_parity_positions r0) by done.
    intros (i & Hi & ->). rewrite Hn.
    pose proof (pow2_pos i (proj1 Hi)).
    pose proof (Z.pow_lt_mono_r 2 i r0). lia. }
  assert (Hnd : NoDup (parity_positions self)).
  { rewrite Hpp. apply NoDup_fmap_2_strong; [|apply NoDup_seqZ].
    intros x y Hx%elem_of_seqZ Hy%elem_of_seqZ Heq.
    apply (Z.pow_inj_r 2); lia. }
  split; try done.
  - lia.
  - rewrite length_data_positions by (done || lia).
    rewrite Hpp, length_fmap, length_seqZ. lia.
  - intros p q.
    rewrite !(elem_of_parity_positions r0) by done.
    intros (i & Hi & ->) (j & Hj & ->) Hne.
    apply land_pow2_pow2; [lia..|]. congruence.
  - intros e He. rewrite Hpp, pow2_bits_sum, Z2Nat.id by done.
    apply Z.mod_small. lia.
  - rewrite Hpp, pow2_sum, Z2Nat.id by done. done.
Qed.

(** * Sums over positions *)

Lemma py_sum_fmap_ext (f g : Z → Z) (l : list Z) :
  (∀ i, i ∈ l → f i = g i) → py_sum (f <$> l) = py_sum (g <$> l).
Proof.
  induction l as [|x l IH]; intros Hfg; [done|].
  rewrite !fmap_cons, !py_sum_cons, (Hfg x), IH; [done| |left].
  intros i Hi. apply Hfg. by right.
Qed.

Lemma filter_ne_id (p : Z) (l : list Z) : p ∉ l → filter (λ i, i ≠ p) l = l.
Proof.
  induction l as [|x l IH]; intros Hp; [done|].
  rewrite not_elem_of_cons in Hp. destruct Hp as [Hne Hp].
  rewrite filter_cons_True by done. by rewrite IH.
Qed.

Lemma py_sum_split (f : Z → Z) (l : list Z) (p : Z) :
  NoDup l → p ∈ l →
  py_sum (f <$> l) = f p + py_sum (f <$> filter (λ i, i ≠ p) l).
Proof.
  induction l as [|x l IH]; intros Hnd Hp; [by apply not_elem_of_nil in Hp|].
  apply NoDup_cons in Hnd as [Hx Hnd].
  rewrite fmap_cons, py_sum_cons.
  destruct (decide (x = p)) as [->|Hne].
  - rewrite filter_cons_False by (intros ?; done).
    by rewrite filter_ne_id.
  - rewrite filter_cons_True by done.
    apply elem_of_cons in Hp as [->|Hp]; [done|].
    rewrite fmap_cons, py_sum_cons, IH by done. lia.
Qed.

(** Changing one slot changes a sum over distinct positions by the
    difference at that slot. *)
Lemma py_sum_insert (c : list Z) (m : nat) (v : Z) (f : Z → nat) (l : list Z) (p : Z) :
  (m < length c)%nat → NoDup l → p ∈ l → f p = m →
  (∀ i, i ∈ l → i ≠ p → f i ≠ m) →
  py_sum ((λ i, <[m:=v]> c !!! f i) <$> l)
  = py_sum ((λ i, c !!! f i) <$> l) - c !!! m + v.
Proof.
  intros Hm Hnd Hp Hfp Hinj.
  rewrite (py_sum_split _ l p), (py_sum_split (λ i, c !!! f i) l p) by done.
  rewrite Hfp, list_lookup_total_insert_eq by done.
  rewrite (py_sum_fmap_ext _ (λ i, c !!! f i)); [lia|].
  intros i [Hne Hi]%list_elem_of_filter.
  rewrite list_lookup_total_insert_ne; [done|]. intros Heq. by apply (Hinj i).
Qed.

Lemma py_sum_insert_notin (c : list Z) (m : nat) (v : Z) (f : Z → nat) (l : list Z) :
  (∀ i, i ∈ l → f i ≠ m) →
  py_sum ((λ i, <[m:=v]> c !!! f i) <$> l) = py_sum ((λ i, c !!! f i) <$> l).
Proof.
  intros Hinj. apply py_sum_fmap_ext. intros i Hi.
  rewrite list_lookup_total_insert_ne; [done|]. intros Heq. by apply (Hinj i).
Qed.

Lemma elem_of_covered (nn p i : Z) : i ∈ covered nn p ↔ Z.land i p ≠ 0 ∧ (1 ≤ i ≤ nn).
Proof. unfold covered. rewrite list_elem_of_filter, elem_of_range. intuition lia. Qed.

Lemma NoDup_covered (nn p : Z) : NoDup (covered nn p).
Proof. apply NoDup_filter, NoDup_range. Qed.

Lemma elem_of_data_positions (nn : Z) (pp : list Z) (i : Z) :
  i ∈ data_positions nn pp ↔ (i ∉ pp) ∧ (1 ≤ i ≤ nn).
Proof. unfold data_positions. rewrite list_elem_of_filter, elem_of_range. intuition lia. Qed.

Lemma NoDup_data_positions (nn : Z) (pp : list Z) : NoDup (data_positions nn pp).
Proof. apply NoDup_filter, NoDup_range. Qed.

(** * The two loops of [encode] *)

(** The first loop writes the data bits, from index [j] on, at the
    positions outside [pp], in the order of the positions, and leaves the
    other slots alone. *)
Lemma place_data_spec (pp data_bits : list Z) (positions c : list Z) (j : nat) :
  NoDup positions →
  (∀ i, i ∈ positions → 0 ≤ i < Z.of_nat (length c)) →
  (j + length (filter (λ i, i ∉ pp) positions) ≤ length data_bits)%nat →
  ∃ c', place_data pp data_bits positions c (Z.of_nat j) = Ok c'
    ∧ length c' = length c
    ∧ (∀ m : nat, (∀ i, i ∈ filter (λ i, i ∉ pp) positions → Z.to_nat i ≠ m) →
         c' !!! m = c !!! m)
    ∧ (λ i, c' !!! Z.to_nat i) <$> filter (λ i, i ∉ pp) positions
      = take (length (filter (λ i, i ∉ pp) positions)) (drop j data_bits).
Proof.
  revert c j. induction positions as [|i positions IH]; intros c j Hnd Hin Hlen.
  { exists c. by rewrite filter_nil. }
  apply NoDup_cons in Hnd as [Hi Hnd].
  assert (Hin' : ∀ i', i' ∈ positions → 0 ≤ i' < Z.of_nat (length c))
    by (intros i' ?; apply Hin; by right).
  pose proof (Hin i (list_elem_of_here _ _)) as Hirange.
  simpl place_data. destruct (decide (i ∉ pp)) as [Hd|Hd].
  - rewrite filter_cons_True in Hlen |- * by done. simpl in Hlen.
    rewrite getitem_ok by lia. simpl. rewrite setitem_ok by done. simpl.
    rewrite Nat2Z.id.
    destruct (IH (<[Z.to_nat i:=data_bits !!! j]> c) (S j)) as (c' & Hrun & Hl & Hkeep & Hval).
    { done. } { intros i' ?. rewrite length_insert. by apply Hin'. } { lia. }
    rewrite length_insert in Hl.
    exists c'. split; [|split; [done|split]].
    + rewrite <- Hrun. f_equal. lia.
    + intros m Hm. rewrite Hkeep.
      * apply list_lookup_total_insert_ne. apply Hm. left.
      * intros i' Hi'. apply Hm. by right.
    + rewrite (drop_S data_bits (data_bits !!! j) j)
        by (apply list_lookup_lookup_total_lt; lia).
      simpl. f_equal; [|exact Hval]. rewrite Hkeep.
      * apply list_lookup_total_insert_eq. lia.
      * intros i' [_ Hi']%list_elem_of_filter Heq.
        assert (i' = i) as -> by (specialize (Hin' i' Hi'); lia). done.
  - rewrite filter_cons_False in Hlen |- * by done.
    destruct (IH c j) as (c' & Hrun & Hl & Hkeep & Hval); [done..|].
    exists c'. done.
Qed.

(** The second loop stores, at each parity position, the parity of the
    bits it covers as they were before the loop, and leaves the other
    slots alone: no parity position covers another one. *)
Lemma compute_parity_spec (nn : Z) (ps c : list Z) :
  length c = Z.to_nat (nn + 1) →
  NoDup ps →
  (∀ p, p ∈ ps → 1 ≤ p ≤ nn) →
  (∀ p q, p ∈ ps → q ∈ ps → p ≠ q → Z.land p q = 0) →
  ∃ c', compute_parity nn ps c = Ok c'
    ∧ length c' = length c
    ∧ (∀ m : nat, (∀ p, p ∈ ps → Z.to_nat p ≠ m) → c' !!! m = c !!! m)
    ∧ (∀ p, p ∈ ps →
         c' !!! Z.to_nat p = py_sum ((λ i, c !!! Z.to_nat i) <$> covered nn p) `mod` 2).
Proof.
  revert c. induction ps as [|p ps IH]; intros c Hlen Hnd Hrange Hdisj.
  { exists c. split; [done|split; [done|split; [done|]]].
    intros p Hp. by apply not_elem_of_nil in Hp. }
  apply NoDup_cons in Hnd as [Hp Hnd].
  pose proof (Hrange p (list_elem_of_here _ _)) as Hprange.
  simpl compute_parity.
  rewrite (mapM_ok _ (λ i, c !!! Z.to_nat i)); simpl.
  2:{ intros i [_ Hi]%elem_of_covered. apply getitem_ok. lia. }
  rewrite setitem_ok by lia. simpl.
  set (v := py_sum ((λ i, c !!! Z.to_nat i) <$> covered nn p) `mod` 2).
  destruct (IH (<[Z.to_nat p:=v]> c)) as (c' & Hrun & Hl & Hkeep & Hval).
  { by rewrite length_insert. } { done. }
  { intros q ?. apply Hrange. by right. }
  { intros q q' ? ?. apply Hdisj; by right. }
  rewrite length_insert in Hl.
  exists c'. split; [done|split; [done|split]].
  - intros m Hm. rewrite Hkeep.
    + apply list_lookup_total_insert_ne. apply Hm. left.
    + intros q ?. apply Hm. by right.
  - intros q [->|Hq]%elem_of_cons.
    + rewrite Hkeep.
      * apply list_lookup_total_insert_eq. lia.
      * intros q Hq Heq.
        assert (q = p) as -> by (specialize (Hrange q (list_elem_of_further _ _ _ Hq)); lia).
        done.
    + rewrite Hval by done. f_equal.
      apply (py_sum_insert_notin c (Z.to_nat p) v Z.to_nat).
      intros i [Hland Hi]%elem_of_covered Heq.
      assert (i = p) as -> by lia.
      apply Hland, Hdisj; [left|by right|]. intros ->. done.
Qed.

Lemma fmap_ext_in (f g : Z → Z) (l : list Z) :
  (∀ i, i ∈ l → f i = g i) → f <$> l = g <$> l.
Proof.
  induction l as [|x l IH]; intros Hfg; [done|].
  rewrite !fmap_cons, (Hfg x), IH; [done| |left].
  intros i Hi. apply Hfg. by right.
Qed.

Lemma mod2_twice (s : Z) : (s `mod` 2 + s) `mod` 2 = 0.
Proof.
  rewrite Zplus_mod_idemp_l. replace (s + s) with (s * 2) by lia.
  apply Z_mod_mult.
Qed.

Lemma mod2_is_bit (s : Z) : is_bit (s `mod` 2).
Proof. unfold is_bit. pose proof (Z.mod_pos_bound s 2). lia. Qed.

Lemma bit_drop1 (c : list Z) (i : Z) : 1 ≤ i → bit (drop 1 c) i = c !!! Z.to_nat i.
Proof.
  intros Hi. unfold bit. rewrite lookup_total_drop. f_equal. lia.
Qed.

(** * Instances: what [encode] returns *)

Section instance.
Context (self : HammingCode) (Hwf : wf self).

Lemma parity_covers_itself (p : Z) :
  p ∈ parity_positions self → p ∈ covered (n self) p.
Proof.
  intros Hp. apply elem_of_covered. rewrite Z.land_diag.
  pose proof (wf_range self Hwf p Hp). split; lia.
Qed.

Lemma parity_not_covered (p q : Z) :
  p ∈ parity_positions self → q ∈ parity_positions self → p ≠ q →
  q ∉ covered (n self) p.
Proof.
  intros Hp Hq Hne [Hland _]%elem_of_covered.
  apply Hland. apply (wf_disjoint self Hwf); [done..|]. congruence.
Qed.

Lemma encode_spec (data_bits : list Z) :
  Z.of_nat (length data_bits) = k self →
  ∃ cw, encode self data_bits = Ok cw
    ∧ Z.of_nat (length cw) = n self
    ∧ bit cw <$> data_positions (n self) (parity_positions self) = data_bits
    ∧ (∀ p, p ∈ parity_positions self →
         bit cw p
         = py_sum (bit cw <$> filter (λ i, i ≠ p) (covered (n self) p)) `mod` 2)
    ∧ (∀ p, p ∈ parity_positions self → check (n self) cw p = 0).
Proof.
  intros Hlen. pose proof (wf_n self Hwf) as Hn. pose proof (wf_k self Hwf) as Hk.
  unfold encode. rewrite decide_False by (intros ?; done).
  set (c0 := replicate (Z.to_nat (n self + 1)) 0).
  destruct (place_data_spec (parity_positions self) data_bits
              (range 1 (n self + 1)) c0 0) as (c1 & Hrun1 & Hl1 & Hkeep1 & Hval1).
  { apply NoDup_range. }
  { intros i Hi%elem_of_range. unfold c0. rewrite length_replicate. lia. }
  { fold (data_positions (n self) (parity_positions self)). lia. }
  fold (data_positions (n self) (parity_positions self)) in Hkeep1, Hval1.
  rewrite drop_0, take_ge in Hval1 by lia.
  change (Z.of_nat 0) with 0 in Hrun1. rewrite Hrun1. simpl.
  unfold c0 in Hl1. rewrite length_replicate in Hl1.
  destruct (compute_parity_spec (n self) (parity_positions self) c1)
    as (c2 & Hrun2 & Hl2 & Hkeep2 & Hval2);
    [done|apply Hwf|apply Hwf|apply Hwf|].
  rewrite Hrun2. simpl.
  assert (Hzero : ∀ p, p ∈ parity_positions self → c1 !!! Z.to_nat p = 0).
  { intros p Hp. pose proof (wf_range self Hwf p Hp).
    rewrite Hkeep1.
    - apply lookup_total_replicate_2. lia.
    - intros i [Hi Hr]%elem_of_data_positions Heq.
      assert (i = p) as -> by lia. done. }
  assert (Hother : ∀ p, p ∈ parity_positions self →
    py_sum (bit (drop 1 c2) <$> filter (λ i, i ≠ p) (covered (n self) p))
    = py_sum ((λ i, c1 !!! Z.to_nat i) <$> covered (n self) p)).
  { intros p Hp.
    rewrite (py_sum_split (λ i, c1 !!! Z.to_nat i) _ p)
      by (apply NoDup_covered || by apply parity_covers_itself).
    rewrite Hzero, Z.add_0_l by done.
    apply py_sum_fmap_ext.
    intros i [Hne [Hland Hi]%elem_of_covered]%list_elem_of_filter.
    rewrite bit_drop1 by lia. apply Hkeep2.
    intros q Hq Heq. pose proof (wf_range self Hwf q Hq).
    assert (q = i) as -> by lia.
    apply Hland, (wf_disjoint self Hwf); done. }
  assert (Hpar : ∀ p, p ∈ parity_positions self →
    bit (drop 1 c2) p
    = py_sum ((λ i, c1 !!! Z.to_nat i) <$> covered (n self) p) `mod` 2).
  { intros p Hp. pose proof (wf_range self Hwf p Hp).
    rewrite bit_drop1 by lia. by apply Hval2. }
  exists (drop 1 c2). split; [done|split; [|split; [|split]]].
  - rewrite length_drop. lia.
  - rewrite <- Hval1. apply fmap_ext_in.
    intros i [Hi Hr]%elem_of_data_positions.
    rewrite bit_drop1 by lia. apply Hkeep2.
    intros p Hp Heq. pose proof (wf_range self Hwf p Hp).
    assert (p = i) as -> by lia. done.
  - intros p Hp. by rewrite Hother, Hpar.
  - intros p Hp. unfold check.
    rewrite (py_sum_split (bit (drop 1 c2)) _ p)
      by (apply NoDup_covered || by apply parity_covers_itself).
    rewrite Hother, Hpar by done. apply mod2_twice.
Qed.

End instance.

(** * The syndrome *)

Lemma read_covered (nn : Z) (codeword : list Z) (l : list Z) :
  Z.of_nat (length codeword) = nn →
  (∀ i, i ∈ l → 1 ≤ i ≤ nn) →
  mapM (λ i, getitem codeword (i - 1)) l = Ok (bit codeword <$> l).
Proof.
  intros Hlen Hl. apply mapM_ok. intros i Hi%Hl.
  unfold bit. apply getitem_ok. lia.
Qed.

Lemma compute_syndrome_spec (nn : Z) (codeword ps : list Z) (syndrome : Z) :
  Z.of_nat (length codeword) = nn →
  compute_syndrome nn codeword ps syndrome = Ok (syndrome + syndrome_of nn codeword ps).
Proof.
  intros Hlen. unfold syndrome_of. revert syndrome.
  induction ps as [|p ps IH]; intros syndrome.
  { simpl. rewrite py_sum_nil. f_equal. lia. }
  simpl compute_syndrome.
  rewrite (read_covered nn) by (done || by intros i [_ ?]%elem_of_covered).
  rewrite bind_Ok. fold (check nn codeword p).
  rewrite fmap_cons, py_sum_cons.
  destruct (decide (check nn codeword p ≠ 0)); rewrite IH; f_equal; lia.
Qed.

Lemma syndrome_of_bounds (nn : Z) (codeword ps : list Z) :
  (∀ p, p ∈ ps → 0 ≤ p) → 0 ≤ syndrome_of nn codeword ps ≤ py_sum ps.
Proof.
  unfold syndrome_of. induction ps as [|p ps IH]; intros Hps.
  { rewrite fmap_nil, py_sum_nil. lia. }
  rewrite fmap_cons, !py_sum_cons.
  pose proof (Hps p (list_elem_of_here _ _)).
  assert (0 ≤ py_sum ((λ p, if decide (check nn codeword p ≠ 0) then p else 0) <$> ps)
          ≤ py_sum ps) by (apply IH; intros q ?; apply Hps; by right).
  destruct (decide _); lia.
Qed.

(** * Flipping one bit *)

Lemma lxor_1_1 (x : Z) : Z.lxor (Z.lxor x 1) 1 = x.
Proof. by rewrite Z.lxor_assoc, Z.lxor_nilpotent, Z.lxor_0_r. Qed.

Lemma lxor_1_bit (x : Z) : is_bit x → Z.lxor x 1 = 1 - x.
Proof. by intros [-> | ->]. Qed.

Lemma length_flip (codeword : list Z) (pos : Z) : length (flip codeword pos) = length codeword.
Proof. apply length_insert. Qed.

Lemma bit_flip_eq (codeword : list Z) (pos : Z) :
  1 ≤ pos ≤ Z.of_nat (length codeword) →
  bit (flip codeword pos) pos = Z.lxor (bit codeword pos) 1.
Proof. intros Hp. unfold flip, bit at 1. apply list_lookup_total_insert_eq. lia. Qed.

Lemma bit_flip_ne (codeword : list Z) (pos i : Z) :
  1 ≤ pos → 1 ≤ i → i ≠ pos → bit (flip codeword pos) i = bit codeword i.
Proof. intros Hp Hi Hne. unfold flip, bit at 1. apply list_lookup_total_insert_ne. lia. Qed.

Lemma flip_flip (codeword : list Z) (pos : Z) :
  1 ≤ pos ≤ Z.of_nat (length codeword) → flip (flip codeword pos) pos = codeword.
Proof.
  intros Hp. unfold flip at 1. rewrite bit_flip_eq, lxor_1_1 by done.
  unfold flip. rewrite list_insert_insert_eq. apply list_insert_id.
  unfold bit. apply list_lookup_lookup_total_lt. lia.
Qed.

Lemma xor1_item_flip (codeword : list Z) (pos : Z) :
  1 ≤ pos ≤ Z.of_nat (length codeword) →
  xor1_item codeword (pos - 1) = Ok (flip codeword pos).
Proof. intros Hp. rewrite xor1_item_ok by lia. done. Qed.

(** A flipped bit inverts exactly the checks that cover it. *)
Lemma check_flip (nn : Z) (codeword : list Z) (pos p : Z) :
  Z.of_nat (length codeword) = nn → 1 ≤ pos ≤ nn → is_bit (bit codeword pos) →
  check nn (flip codeword pos) p
  = (check nn codeword p + (if decide (Z.land pos p ≠ 0) then 1 else 0)) `mod` 2.
Proof.
  intros Hlen Hpos Hbit. unfold check.
  destruct (decide (Z.land pos p ≠ 0)) as [Hd|Hd].
  - unfold flip, bit at 1.
    rewrite (py_sum_insert codeword _ _ (λ i, Z.to_nat (i - 1)) _ pos).
    + fold (bit codeword pos). rewrite lxor_1_bit by done.
      change (λ i, codeword !!! Z.to_nat (i - 1)) with (bit codeword).
      rewrite Zplus_mod_idemp_l.
      destruct Hbit as [-> | ->].
      * f_equal. lia.
      * replace (py_sum (bit codeword <$> covered nn p) - 1 + (1 - 1))
          with (py_sum (bit codeword <$> covered nn p) + 1 + (-1) * 2) by lia.
        apply Z_mod_plus_full.
    + lia.
    + apply NoDup_covered.
    + apply elem_of_covered. done.
    + done.
    + intros i [_ Hi]%elem_of_covered Hne. lia.
  - rewrite Z.add_0_r, Z.mod_mod by done. f_equal.
    apply py_sum_fmap_ext. intros i [Hland Hi]%elem_of_covered.
    apply bit_flip_ne; [lia..|]. intros ->. done.
Qed.

(** * Instances: what [decode] returns *)

Section decoding.
Context (self : HammingCode) (Hwf : wf self).

Lemma extract_data_ok (code : list Z) :
  Z.of_nat (length code) = n self →
  extract_data self code
  = Ok (bit code <$> data_positions (n self) (parity_positions self)).
Proof.
  intros Hlen. apply (read_covered (n self)); [done|].
  by intros i [_ ?]%elem_of_data_positions.
Qed.

Lemma syndrome_range (codeword : list Z) :
  0 ≤ syndrome_of (n self) codeword (parity_positions self) ≤ n self.
Proof.
  rewrite <- (wf_total self Hwf) at 3. apply syndrome_of_bounds.
  intros p Hp. pose proof (wf_range self Hwf p Hp). lia.
Qed.

(** [decode] on any list of the right length: no exception, and the
    result is read off the syndrome. *)
Lemma decode_spec (codeword : list Z) :
  Z.of_nat (length codeword) = n self →
  decode self codeword
  = let syndrome := syndrome_of (n self) codeword (parity_positions self) in
    if decide (syndrome ≠ 0)
    then Ok (bit (flip codeword syndrome)
               <$> data_positions (n self) (parity_positions self), true)
    else Ok (bit codeword <$> data_positions (n self) (parity_positions self), false).
Proof.
  intros Hlen. unfold decode. rewrite decide_False by (intros ?; done).
  rewrite compute_syndrome_spec, bind_Ok, Z.add_0_l by done.
  pose proof (syndrome_range codeword) as Hs. cbv zeta.
  destruct (decide _) as [Hne|Heq].
  - rewrite xor1_item_flip by lia. rewrite !bind_Ok.
    rewrite extract_data_ok by (by rewrite length_flip). done.
  - rewrite bind_Ok, extract_data_ok by done. done.
Qed.

Lemma syndrome_of_codeword (codeword : list Z) :
  (∀ p, p ∈ parity_positions self → check (n self) codeword p = 0) →
  syndrome_of (n self) codeword (parity_positions self) = 0.
Proof.
  unfold syndrome_of. generalize (parity_positions self).
  intros ps. induction ps as [|p ps IH]; intros Hc; [done|].
  rewrite fmap_cons, py_sum_cons, IH by (intros q ?; apply Hc; by right).
  rewrite decide_False; [done|]. intros Hne. apply Hne, Hc. left.
Qed.

(** One flipped bit in a codeword: the syndrome is its position. *)
Lemma syndrome_of_flip (codeword : list Z) (pos : Z) :
  Z.of_nat (length codeword) = n self →
  (∀ p, p ∈ parity_positions self → check (n self) codeword p = 0) →
  1 ≤ pos ≤ n self → is_bit (bit codeword pos) →
  syndrome_of (n self) (flip codeword pos) (parity_positions self) = pos.
Proof.
  intros Hlen Hc Hpos Hbit.
  rewrite <- (wf_locate self Hwf pos Hpos) at 2.
  unfold syndrome_of. apply py_sum_fmap_ext. intros p Hp.
  rewrite (check_flip (n self)), Hc by done.
  destruct (decide (Z.land pos p ≠ 0)); by simpl.
Qed.

Lemma encode_bits (data_bits cw : list Z) (i : Z) :
  encode self data_bits = Ok cw → Z.of_nat (length data_bits) = k self →
  Forall is_bit data_bits → 1 ≤ i ≤ n self → is_bit (bit cw i).
Proof.
  intros Henc Hlen Hbits Hi.
  destruct (encode_spec self Hwf data_bits Hlen) as (cw' & Henc' & _ & Hdata & Hpar & _).
  rewrite Henc in Henc'. injection Henc' as <-.
  destruct (decide (i ∈ parity_positions self)) as [Hp|Hp].
  - rewrite Hpar by done. apply mod2_is_bit.
  - rewrite Forall_forall in Hbits. apply Hbits. rewrite <- Hdata.
    apply list_elem_of_fmap. exists i. split; [done|].
    by apply elem_of_data_positions.
Qed.

End decoding.

(** On bits, XOR is the sum mod 2. *)
Lemma fold_lxor_bits (l : list Z) (a : Z) :
  is_bit a → Forall is_bit l → fold_left Z.lxor l a = (a + py_sum l) `mod` 2.
Proof.
  intros Ha Hl. revert a Ha. induction Hl as [|x l Hx Hl IH]; intros a Ha.
  { rewrite py_sum_nil. destruct Ha as [-> | ->]; done. }
  simpl. rewrite py_sum_cons.
  destruct Ha as [-> | ->], Hx as [-> | ->].
  - change (Z.lxor 0 0) with 0. by rewrite IH by (by left).
  - change (Z.lxor 0 1) with 1. by rewrite IH by (by right).
  - change (Z.lxor 1 0) with 1. rewrite IH by (by right). f_equal; lia.
  - change (Z.lxor 1 1) with 0. rewrite IH by (by left).
    replace (1 + (1 + py_sum l)) with (0 + py_sum l + 1 * 2) by lia.
    by rewrite Z_mod_plus_full.
Qed.

Lemma py_xor_bits (l : list Z) : Forall is_bit l → py_xor l = py_sum l `mod` 2.
Proof. intros Hl. unfold py_xor. rewrite fold_lxor_bits by (done || (by left)). done. Qed.

(** * The claims *)

(** Closes [Forall is_bit l] for a literal list [l] of zeros and ones. *)
Ltac literal_bits :=
  repeat (apply List.Forall_cons; [unfold is_bit; lia|]); apply List.Forall_nil.

(** C1: for every r >= 2, every data sequence of length k with bits in
    {0,1} and every position p with 1 <= p <= n, decoding the encoded data
    with the bit at p flipped returns the data unchanged, with corrected
    true. *)
Theorem single_error_corrected (r0 : Z) (self : HammingCode) (data_bits : list Z) (p : Z) :
  2 ≤ r0 → __init__ r0 = Ok self →
  Z.of_nat (length data_bits) = k self → Forall is_bit data_bits →
  1 ≤ p ≤ n self →
  (cw ← encode self data_bits; err ← simulate_error self cw p; decode self err)
  = Ok (data_bits, true).
Proof.
  intros Hr Hinit Hlen Hbits Hp.
  assert (Hwf : wf self) by (apply (init_wf r0); [lia|done]).
  destruct (encode_spec self Hwf data_bits Hlen) as (cw & Henc & Hl & Hdata & _ & Hchk).
  rewrite Henc, bind_Ok.
  unfold simulate_error. rewrite decide_False by lia. cbv zeta.
  rewrite xor1_item_flip, bind_Ok by lia.
  rewrite (decode_spec self Hwf) by (by rewrite length_flip). cbv zeta.
  rewrite (syndrome_of_flip self Hwf); [|done|done|done|].
  - rewrite decide_True by lia. by rewrite flip_flip, Hdata by lia.
  - by apply (encode_bits self Hwf data_bits).
Qed.

Lemma single_error_corrected_witness :
  (cw ← encode ham3 [1; 0; 1; 1]; err ← simulate_error ham3 cw 6; decode ham3 err)
  = Ok ([1; 0; 1; 1], true).
Proof.
  apply (single_error_corrected 3 ham3 [1; 0; 1; 1] 6).
  - lia.
  - reflexivity.
  - reflexivity.
  - literal_bits.
  - simpl. lia.
Defined.

(** C2: for every r >= 2 and every data sequence of length k with bits in
    {0,1}, decoding the encoded data returns exactly the data, with
    corrected false. *)
Theorem round_trip (r0 : Z) (self : HammingCode) (data_bits : list Z) :
  2 ≤ r0 → __init__ r0 = Ok self →
  Z.of_nat (length data_bits) = k self → Forall is_bit data_bits →
  (cw ← encode self data_bits; decode self cw) = Ok (data_bits, false).
Proof.
  intros Hr Hinit Hlen Hbits.
  assert (Hwf : wf self) by (apply (init_wf r0); [lia|done]).
  destruct (encode_spec self Hwf data_bits Hlen) as (cw & Henc & Hl & Hdata & _ & Hchk).
  rewrite Henc, bind_Ok, (decode_spec self Hwf) by done. cbv zeta.
  rewrite (syndrome_of_codeword self) by done.
  rewrite decide_False by (intros ?; done). by rewrite Hdata.
Qed.

Lemma round_trip_witness :
  (cw ← encode ham3 [0; 1; 1; 0]; decode ham3 cw) = Ok ([0; 1; 1; 0], false).
Proof.
  apply (round_trip 3 ham3 [0; 1; 1; 0]).
  - lia.
  - reflexivity.
  - reflexivity.
  - literal_bits.
Defined.

(** C3 as stated fails: with r = 3 the codeword of [1,0,1,1] is
    not [1,1,0,0,1,0,1]. *)
Lemma encode_1011_not_as_claimed :
  (self ← __init__ 3; encode self [1; 0; 1; 1]) ≠ Ok [1; 1; 0; 0; 1; 0; 1].
Proof. vm_compute. discriminate. Qed.

(** C3, amended: the instance built with r = 3 has n = 7, k = 4 and parity
    positions 1, 2, 4; encode([1,0,1,1]) is [0,1,1,0,0,1,1]; decoding that
    codeword with position 3 flipped returns ([1,0,1,1], true). *)
Theorem hamming_7_4_scenario :
  __init__ 3 = Ok {| r := 3; n := 7; k := 4; parity_positions := [1; 2; 4] |}
  ∧ (self ← __init__ 3; encode self [1; 0; 1; 1]) = Ok [0; 1; 1; 0; 0; 1; 1]
  ∧ (self ← __init__ 3; cw ← encode self [1; 0; 1; 1];
     err ← simulate_error self cw 3; Ok err) = Ok [0; 1; 0; 0; 0; 1; 1]
  ∧ (self ← __init__ 3; cw ← encode self [1; 0; 1; 1];
     err ← simulate_error self cw 3; decode self err) = Ok ([1; 0; 1; 1], true).
Proof. repeat split; vm_compute; reflexivity. Qed.

(** C4 as stated fails: r = 0 is below 1 and the constructor
    raises nothing; it returns the instance with n = 0, k = 0 and no parity
    position. *)
Lemma init_0_does_not_fail :
  0 < 1 ∧ __init__ 0 = Ok {| r := 0; n := 0; k := 0; parity_positions := [] |}
  ∧ ¬ (∃ e, __init__ 0 = Raise e).
Proof. split; [lia|]. split; [reflexivity|]. intros [e He]. discriminate. Qed.

(** C4, amended: for every r >= 0 (so for r = 0 too) the constructor
    raises nothing and yields n = 2^r - 1, k = n - r and the parity
    positions 2^0, ..., 2^(r-1), in this order. *)
Theorem init_succeeds (r0 : Z) :
  0 ≤ r0 →
  ∃ self, __init__ r0 = Ok self
    ∧ r self = r0
    ∧ n self = 2 ^ r0 - 1
    ∧ k self = n self - r0
    ∧ parity_positions self = (λ i, 2 ^ i) <$> seqZ 0 r0
    ∧ (∀ p, p ∈ parity_positions self ↔ ∃ i, 0 ≤ i < r0 ∧ p = 2 ^ i).
Proof.
  intros Hr.
  destruct (__init__ r0) as [self|e] eqn:Hinit; [|discriminate].
  exists self. split; [done|].
  pose proof (elem_of_parity_positions r0 self) as Hpp.
  injection Hinit as <-. simpl.
  split; [done|split; [done|split; [done|split]]].
  - unfold range. by rewrite Z.sub_0_r.
  - intros p. by apply Hpp.
Qed.

Lemma init_succeeds_witness :
  ∃ self, __init__ 3 = Ok self
    ∧ r self = 3
    ∧ n self = 2 ^ 3 - 1
    ∧ k self = n self - 3
    ∧ parity_positions self = (λ i, 2 ^ i) <$> seqZ 0 3
    ∧ (∀ p, p ∈ parity_positions self ↔ ∃ i, 0 ≤ i < 3 ∧ p = 2 ^ i).
Proof. apply (init_succeeds 3). lia. Defined.

(** C5: for every r >= 1 and every data sequence of length k with bits in
    {0,1}, the codeword [encode] returns has length n, carries the data
    bits at the non-parity positions in increasing position order, and at
    each parity position p holds the XOR, that is the sum mod 2, of the
    bits at the other positions i of 1..n with i & p != 0; the full parity
    check at p is 0. *)
Theorem encode_layout (r0 : Z) (self : HammingCode) (data_bits : list Z) :
  1 ≤ r0 → __init__ r0 = Ok self →
  Z.of_nat (length data_bits) = k self → Forall is_bit data_bits →
  ∃ cw, encode self data_bits = Ok cw
    ∧ Z.of_nat (length cw) = n self
    ∧ bit cw <$> data_positions (n self) (parity_positions self) = data_bits
    ∧ ∀ p, p ∈ parity_positions self →
        bit cw p = py_xor (bit cw <$> filter (λ i, i ≠ p) (covered (n self) p))
        ∧ bit cw p = py_sum (bit cw <$> filter (λ i, i ≠ p) (covered (n self) p)) `mod` 2
        ∧ check (n self) cw p = 0.
Proof.
  intros Hr Hinit Hlen Hbits.
  assert (Hwf : wf self) by (apply (init_wf r0); [lia|done]).
  destruct (encode_spec self Hwf data_bits Hlen) as (cw & Henc & Hl & Hdata & Hpar & Hchk).
  exists cw. split; [done|split; [done|split; [done|]]].
  intros p Hp. split; [|split; [by apply Hpar|by apply Hchk]].
  rewrite py_xor_bits; [by apply Hpar|].
  apply Forall_fmap, Forall_forall.
  intros i [_ [_ Hi]%elem_of_covered]%list_elem_of_filter.
  by apply (encode_bits self Hwf data_bits).
Qed.

Lemma encode_layout_witness :
  ∃ cw, encode ham3 [1; 0; 1; 1] = Ok cw
    ∧ Z.of_nat (length cw) = n ham3
    ∧ bit cw <$> data_positions (n ham3) (parity_positions ham3) = [1; 0; 1; 1]
    ∧ ∀ p, p ∈ parity_positions ham3 →
        bit cw p = py_xor (bit cw <$> filter (λ i, i ≠ p) (covered (n ham3) p))
        ∧ bit cw p = py_sum (bit cw <$> filter (λ i, i ≠ p) (covered (n ham3) p)) `mod` 2
        ∧ check (n ham3) cw p = 0.
Proof.
  apply (encode_layout 3 ham3 [1; 0; 1; 1]).
  - lia.
  - reflexivity.
  - reflexivity.
  - literal_bits.
Defined.

Lemma syndrome_of_filter (nn : Z) (codeword ps : list Z) :
  syndrome_of nn codeword ps = py_sum (filter (λ p, check nn codeword p ≠ 0) ps).
Proof.
  unfold syndrome_of. induction ps as [|p ps IH]; [done|].
  rewrite fmap_cons, py_sum_cons, IH.
  destruct (decide (check nn codeword p ≠ 0)).
  - by rewrite filter_cons_True, py_sum_cons.
  - by rewrite filter_cons_False.
Qed.

(** C6: for every r >= 1 and every input of length n with bits in {0,1},
    the syndrome [decode] computes is a sum of distinct parity positions
    and lies in [0, n]; when it is not 0, syndrome - 1 is an index of the
    codeword copy and the correction raises nothing. *)
Theorem syndrome_in_range (r0 : Z) (self : HammingCode) (codeword : list Z) :
  1 ≤ r0 → __init__ r0 = Ok self →
  Z.of_nat (length codeword) = n self → Forall is_bit codeword →
  ∃ syndrome,
    compute_syndrome (n self) codeword (parity_positions self) 0 = Ok syndrome
    ∧ syndrome
      = py_sum (filter (λ p, check (n self) codeword p ≠ 0) (parity_positions self))
    ∧ 0 ≤ syndrome ≤ n self
    ∧ (syndrome ≠ 0 →
         0 ≤ syndrome - 1 < Z.of_nat (length codeword)
         ∧ py_index (length codeword) (syndrome - 1) = Some (Z.to_nat (syndrome - 1))
         ∧ ∃ code, xor1_item codeword (syndrome - 1) = Ok code).
Proof.
  intros Hr Hinit Hlen Hbits.
  assert (Hwf : wf self) by (apply (init_wf r0); [lia|done]).
  pose proof (syndrome_range self Hwf codeword) as Hs.
  exists (syndrome_of (n self) codeword (parity_positions self)).
  split; [|split; [|split; [done|]]].
  - rewrite compute_syndrome_spec by done. f_equal; lia.
  - apply syndrome_of_filter.
  - intros Hne. split; [lia|]. split.
    + apply py_index_nonneg. lia.
    + eexists. apply xor1_item_flip. lia.
Qed.

Lemma syndrome_in_range_witness :
  ∃ syndrome,
    compute_syndrome (n ham3) [0; 1; 0; 0; 0; 1; 1] (parity_positions ham3) 0 = Ok syndrome
    ∧ syndrome
      = py_sum (filter (λ p, check (n ham3) [0; 1; 0; 0; 0; 1; 1] p ≠ 0)
                  (parity_positions ham3))
    ∧ 0 ≤ syndrome ≤ n ham3
    ∧ (syndrome ≠ 0 →
         0 ≤ syndrome - 1 < Z.of_nat (length [0; 1; 0; 0; 0; 1; 1])
         ∧ py_index (length [0; 1; 0; 0; 0; 1; 1]) (syndrome - 1)
           = Some (Z.to_nat (syndrome - 1))
         ∧ ∃ code, xor1_item [0; 1; 0; 0; 0; 1; 1] (syndrome - 1) = Ok code).
Proof.
  apply (syndrome_in_range 3 ham3 [0; 1; 0; 0; 0; 1; 1]).
  - lia.
  - reflexivity.
  - reflexivity.
  - literal_bits.
Defined.

(** C7: for every r >= 1, [encode] raises, and then the length error, if
    and only if the input length differs from k, and [decode] raises, and
    then the length error, if and only if the input length differs from n;
    on an input of the right length neither raises. *)
Theorem length_checks (r0 : Z) (self : HammingCode) (data_bits codeword : list Z) :
  1 ≤ r0 → __init__ r0 = Ok self →
  ((∃ e, encode self data_bits = Raise e) ↔ Z.of_nat (length data_bits) ≠ k self)
  ∧ (∀ e, encode self data_bits = Raise e → e = ValueError (Data_length_must_be (k self)))
  ∧ (Z.of_nat (length data_bits) = k self → ∃ cw, encode self data_bits = Ok cw)
  ∧ ((∃ e, decode self codeword = Raise e) ↔ Z.of_nat (length codeword) ≠ n self)
  ∧ (∀ e, decode self codeword = Raise e → e = ValueError (Codeword_length_must_be (n self)))
  ∧ (Z.of_nat (length codeword) = n self → ∃ res, decode self codeword = Ok res).
Proof.
  intros Hr Hinit.
  assert (Hwf : wf self) by (apply (init_wf r0); [lia|done]).
  assert (Henc : Z.of_nat (length data_bits) = k self → ∃ cw, encode self data_bits = Ok cw).
  { intros Hlen. destruct (encode_spec self Hwf data_bits Hlen) as (cw & Hcw & _).
    by exists cw. }
  assert (Hdec : Z.of_nat (length codeword) = n self → ∃ res, decode self codeword = Ok res).
  { intros Hlen. rewrite (decode_spec self Hwf) by done. cbv zeta.
    destruct (decide _); eauto. }
  assert (Henc' : Z.of_nat (length data_bits) ≠ k self →
    encode self data_bits = Raise (ValueError (Data_length_must_be (k self)))).
  { intros Hne. unfold encode. by rewrite decide_True. }
  assert (Hdec' : Z.of_nat (length codeword) ≠ n self →
    decode self codeword = Raise (ValueError (Codeword_length_must_be (n self)))).
  { intros Hne. unfold decode. by rewrite decide_True. }
  split; [|split; [|split; [done|split; [|split; [|done]]]]].
  - split.
    + intros [e He] Hlen. destruct (Henc Hlen) as [cw Hcw]. congruence.
    + intros Hne. eexists. by apply Henc'.
  - intros e He. destruct (decide (Z.of_nat (length data_bits) = k self)) as [Hlen|Hne].
    + destruct (Henc Hlen) as [cw Hcw]. congruence.
    + rewrite Henc' in He by done. congruence.
  - split.
    + intros [e He] Hlen. destruct (Hdec Hlen) as [res Hres]. congruence.
    + intros Hne. eexists. by apply Hdec'.
  - intros e He. destruct (decide (Z.of_nat (length codeword) = n self)) as [Hlen|Hne].
    + destruct (Hdec Hlen) as [res Hres]. congruence.
    + rewrite Hdec' in He by done. congruence.
Qed.

Lemma length_checks_witness :
  (∃ e, encode ham3 [1; 0; 1] = Raise e)
  ∧ (∃ e, encode ham3 [1; 0; 1; 1; 0] = Raise e)
  ∧ (∃ cw, encode ham3 [1; 0; 1; 1] = Ok cw)
  ∧ (∃ e, decode ham3 [0; 1; 1; 0; 0; 1] = Raise e)
  ∧ (∃ e, decode ham3 [0; 1; 1; 0; 0; 1; 1; 0] = Raise e)
  ∧ (∃ res, decode ham3 [0; 1; 1; 0; 0; 1; 1] = Ok res).
Proof.
  assert (H3 : 1 ≤ 3) by lia.
  split; [|split; [|split; [|split; [|split]]]].
  - apply (length_checks 3 ham3 [1; 0; 1] [] H3 eq_refl). simpl. lia.
  - apply (length_checks 3 ham3 [1; 0; 1; 1; 0] [] H3 eq_refl). simpl. lia.
  - apply (length_checks 3 ham3 [1; 0; 1; 1] [] H3 eq_refl). reflexivity.
  - apply (length_checks 3 ham3 [] [0; 1; 1; 0; 0; 1] H3 eq_refl). simpl. lia.
  - apply (length_checks 3 ham3 [] [0; 1; 1; 0; 0; 1; 1; 0] H3 eq_refl). simpl. lia.
  - apply (length_checks 3 ham3 [] [0; 1; 1; 0; 0; 1; 1] H3 eq_refl). reflexivity.
Defined.

(** * The store model *)

Lemma simulate_error_ok (self : HammingCode) (codeword : list Z) (pos : Z) :
  Z.of_nat (length codeword) = n self → 1 ≤ pos ≤ n self →
  simulate_error self codeword pos = Ok (flip codeword pos).
Proof.
  intros Hlen Hpos. unfold simulate_error. rewrite decide_False by lia.
  cbv zeta. apply xor1_item_flip. lia.
Qed.

Lemma fresh_ne (σ : store) (l : loc) (v : list Z) : σ !! l = Some v → fresh (dom σ) ≠ l.
Proof.
  intros Hl Heq. apply (is_fresh (dom σ)). rewrite Heq. by apply elem_of_dom_2 in Hl.
Qed.

Lemma fresh_unallocated (σ : store) : σ !! fresh (dom σ) = None.
Proof. apply not_elem_of_dom, is_fresh. Qed.

(** In the store, [simulate_error] allocates one object, the flipped copy,
    and returns its reference. *)
Lemma simulate_error_st_spec (self : HammingCode) (σ : store) (l : loc)
    (codeword : list Z) (pos : Z) :
  σ !! l = Some codeword → Z.of_nat (length codeword) = n self → 1 ≤ pos ≤ n self →
  simulate_error_st self l pos σ
  = (Ok (fresh (dom σ)), <[fresh (dom σ):=flip codeword pos]> σ).
Proof.
  intros Hl Hlen Hpos. unfold simulate_error_st. rewrite decide_False by lia.
  unfold copy, xor1_at. cbv zeta.
  rewrite (lookup_total_correct σ l codeword Hl), lookup_total_insert_eq.
  rewrite xor1_item_flip by lia. by rewrite insert_insert_eq.
Qed.

(** In the store, [decode] allocates two objects, the working copy and the
    data list, and returns the reference of the second. *)
Lemma decode_st_spec (self : HammingCode) (σ : store) (l : loc) (codeword : list Z) :
  wf self → σ !! l = Some codeword → Z.of_nat (length codeword) = n self →
  decode_st self l σ
  = let syndrome := syndrome_of (n self) codeword (parity_positions self) in
    let code := if decide (syndrome ≠ 0) then flip codeword syndrome else codeword in
    let σ1 := <[fresh (dom σ):=code]> σ in
    (Ok (fresh (dom σ1), bool_decide (syndrome ≠ 0)),
     <[fresh (dom σ1):=bit code <$> data_positions (n self) (parity_positions self)]> σ1).
Proof.
  intros Hwf Hl Hlen. unfold decode_st, copy, xor1_at, new_list.
  rewrite (lookup_total_correct σ l codeword Hl).
  rewrite decide_False by (intros ?; done).
  rewrite compute_syndrome_spec, Z.add_0_l by done.
  pose proof (syndrome_range self Hwf codeword) as Hs. cbv zeta.
  destruct (decide _) as [Hne|Heq].
  - rewrite lookup_total_insert_eq, xor1_item_flip by lia. simpl.
    rewrite insert_insert_eq, lookup_total_insert_eq.
    rewrite extract_data_ok by (by rewrite length_flip).
    by rewrite bool_decide_eq_true_2.
  - rewrite lookup_total_insert_eq, extract_data_ok by done.
    by rewrite bool_decide_eq_false_2.
Qed.

(** C8: for every r >= 1, every codeword of length n and every integer
    pos, [simulate_error] raises, and then the position error, if and only
    if pos < 1 or pos > n; otherwise it returns a new list, equal to the
    input at every position but pos, where the bit is inverted, and the
    input list is as it was. *)
Theorem simulate_error_frame (r0 : Z) (self : HammingCode) (σ : store) (l : loc)
    (codeword : list Z) (pos : Z) :
  1 ≤ r0 → __init__ r0 = Ok self →
  σ !! l = Some codeword → Z.of_nat (length codeword) = n self →
  ((∃ e, (simulate_error_st self l pos σ).1 = Raise e) ↔ pos < 1 ∨ pos > n self)
  ∧ (pos < 1 ∨ pos > n self →
       simulate_error_st self l pos σ = (Raise (IndexError Position_out_of_range), σ))
  ∧ (1 ≤ pos ≤ n self →
       ∃ l' σ' cw,
         simulate_error_st self l pos σ = (Ok l', σ')
         ∧ simulate_error self codeword pos = Ok cw
         ∧ l' ≠ l ∧ σ !! l' = None
         ∧ σ' !! l' = Some cw
         ∧ σ' !! l = Some codeword
         ∧ (∀ l'', l'' ≠ l' → σ' !! l'' = σ !! l'')
         ∧ length cw = length codeword
         ∧ bit cw pos = Z.lxor (bit codeword pos) 1
         ∧ (is_bit (bit codeword pos) → bit cw pos = 1 - bit codeword pos)
         ∧ (∀ i, 1 ≤ i ≤ n self → i ≠ pos → bit cw i = bit codeword i)).
Proof.
  intros Hr Hinit Hl Hlen.
  assert (Hout : pos < 1 ∨ pos > n self →
    simulate_error_st self l pos σ = (Raise (IndexError Position_out_of_range), σ)).
  { intros Hpos. unfold simulate_error_st. by rewrite decide_True. }
  split; [|split; [done|]].
  - split.
    + intros [e He]. destruct (decide (pos < 1 ∨ pos > n self)) as [|Hin]; [done|].
      rewrite (simulate_error_st_spec self σ l codeword) in He by (done || lia).
      discriminate.
    + intros Hpos. rewrite Hout by done. by eexists.
  - intros Hpos.
    exists (fresh (dom σ)), (<[fresh (dom σ):=flip codeword pos]> σ), (flip codeword pos).
    pose proof (fresh_ne σ l codeword Hl) as Hne.
    split; [by apply simulate_error_st_spec|].
    split; [by apply simulate_error_ok|].
    split; [done|]. split; [apply fresh_unallocated|].
    split; [apply lookup_insert_eq|].
    split; [by rewrite lookup_insert_ne|].
    split; [intros l'' ?; by rewrite lookup_insert_ne|].
    split; [apply length_flip|].
    split; [apply bit_flip_eq; lia|].
    split.
    + intros Hb. rewrite bit_flip_eq by lia. by apply lxor_1_bit.
    + intros i Hi Hne'. apply bit_flip_ne; (done || lia).
Qed.

Lemma simulate_error_frame_witness :
  let σ : store := {[1%positive := [0; 1; 1; 0; 0; 1; 1]]} in
  ((∃ e, (simulate_error_st ham3 1%positive 3 σ).1 = Raise e) ↔ 3 < 1 ∨ 3 > n ham3)
  ∧ (3 < 1 ∨ 3 > n ham3 →
       simulate_error_st ham3 1%positive 3 σ = (Raise (IndexError Position_out_of_range), σ))
  ∧ (1 ≤ 3 ≤ n ham3 →
       ∃ l' σ' cw,
         simulate_error_st ham3 1%positive 3 σ = (Ok l', σ')
         ∧ simulate_error ham3 [0; 1; 1; 0; 0; 1; 1] 3 = Ok cw
         ∧ l' ≠ 1%positive ∧ σ !! l' = None
         ∧ σ' !! l' = Some cw
         ∧ σ' !! 1%positive = Some [0; 1; 1; 0; 0; 1; 1]
         ∧ (∀ l'', l'' ≠ l' → σ' !! l'' = σ !! l'')
         ∧ length cw = length [0; 1; 1; 0; 0; 1; 1]
         ∧ bit cw 3 = Z.lxor (bit [0; 1; 1; 0; 0; 1; 1] 3) 1
         ∧ (is_bit (bit [0; 1; 1; 0; 0; 1; 1] 3) → bit cw 3 = 1 - bit [0; 1; 1; 0; 0; 1; 1] 3)
         ∧ (∀ i, 1 ≤ i ≤ n ham3 → i ≠ 3 → bit cw i = bit [0; 1; 1; 0; 0; 1; 1] i)).
Proof.
  intros σ.
  apply (simulate_error_frame 3 ham3 σ 1%positive [0; 1; 1; 0; 0; 1; 1] 3).
  - lia.
  - reflexivity.
  - reflexivity.
  - reflexivity.
Defined.

(** C9: for every r >= 1, every sequence x of length n with bits in {0,1}
    and every position p with 1 <= p <= n, flipping the bit at p twice
    gives x back. *)
Theorem simulate_error_twice (r0 : Z) (self : HammingCode) (x : list Z) (p : Z) :
  1 ≤ r0 → __init__ r0 = Ok self →
  Z.of_nat (length x) = n self → Forall is_bit x → 1 ≤ p ≤ n self →
  (y ← simulate_error self x p; simulate_error self y p) = Ok x.
Proof.
  intros Hr Hinit Hlen Hbits Hp.
  rewrite simulate_error_ok, bind_Ok by done.
  rewrite simulate_error_ok by (by rewrite ?length_flip).
  f_equal. apply flip_flip. lia.
Qed.

Lemma simulate_error_twice_witness :
  (y ← simulate_error ham3 [0; 1; 1; 0; 0; 1; 1] 7; simulate_error ham3 y 7)
  = Ok [0; 1; 1; 0; 0; 1; 1].
Proof.
  apply (simulate_error_twice 3 ham3 [0; 1; 1; 0; 0; 1; 1] 7).
  - lia.
  - reflexivity.
  - reflexivity.
  - literal_bits.
  - simpl. lia.
Defined.

(** C10: for every r >= 1 and every input of length n, [decode] leaves the
    list it is given as it was: the correction, when there is one, is made
    on a copy, a new object, and the data comes back in another new
    object; every object of the store before the call is unchanged. *)
Theorem decode_frame (r0 : Z) (self : HammingCode) (σ : store) (l : loc)
    (codeword : list Z) :
  1 ≤ r0 → __init__ r0 = Ok self →
  σ !! l = Some codeword → Z.of_nat (length codeword) = n self →
  ∃ l' corrected σ' data,
    decode_st self l σ = (Ok (l', corrected), σ')
    ∧ decode self codeword = Ok (data, corrected)
    ∧ σ !! l' = None
    ∧ σ' !! l' = Some data
    ∧ σ' !! l = Some codeword
    ∧ (∀ l'', is_Some (σ !! l'') → σ' !! l'' = σ !! l'').
Proof.
  intros Hr Hinit Hl Hlen.
  assert (Hwf : wf self) by (apply (init_wf r0); [lia|done]).
  rewrite (decode_st_spec self σ l codeword), (decode_spec self Hwf) by done.
  cbv zeta.
  set (syndrome := syndrome_of (n self) codeword (parity_positions self)).
  set (code := if decide (syndrome ≠ 0) then flip codeword syndrome else codeword).
  set (σ1 := <[fresh (dom σ):=code]> σ).
  assert (Hkeep : ∀ l'' v, σ !! l'' = Some v → σ1 !! l'' = Some v ∧ fresh (dom σ1) ≠ l'').
  { intros l'' v Hv.
    assert (σ1 !! l'' = Some v) as Hv1
      by (unfold σ1; rewrite lookup_insert_ne; [done|by apply (fresh_ne σ l'' v)]).
    split; [done|]. by apply (fresh_ne σ1 l'' v). }
  eexists (fresh (dom σ1)), (bool_decide (syndrome ≠ 0)), _,
          (bit code <$> data_positions (n self) (parity_positions self)).
  split; [reflexivity|]. split; [|split; [|split; [|split]]].
  - unfold code. destruct (decide (syndrome ≠ 0)).
    + by rewrite bool_decide_eq_true_2.
    + by rewrite bool_decide_eq_false_2.
  - destruct (σ !! fresh (dom σ1)) as [v|] eqn:Hv; [|done].
    by destruct (Hkeep _ _ Hv).
  - apply lookup_insert_eq.
  - destruct (Hkeep l codeword Hl). by rewrite lookup_insert_ne.
  - intros l'' [v Hv]. destruct (Hkeep l'' v Hv) as [Hv1 Hne].
    rewrite lookup_insert_ne by done. by rewrite Hv1, Hv.
Qed.

Lemma decode_frame_witness :
  let σ : store := {[1%positive := [0; 1; 0; 0; 0; 1; 1]]} in
  ∃ l' corrected σ' data,
    decode_st ham3 1%positive σ = (Ok (l', corrected), σ')
    ∧ decode ham3 [0; 1; 0; 0; 0; 1; 1] = Ok (data, corrected)
    ∧ σ !! l' = None
    ∧ σ' !! l' = Some data
    ∧ σ' !! 1%positive = Some [0; 1; 0; 0; 0; 1; 1]
    ∧ (∀ l'', is_Some (σ !! l'') → σ' !! l'' = σ !! l'').
Proof.
  intros σ.
  apply (decode_frame 3 ham3 σ 1%positive [0; 1; 0; 0; 0; 1; 1]).
  - lia.
  - reflexivity.
  - reflexivity.
  - reflexivity.
Defined.

(** The store run of the scenario of [runner.py]: the corrupted codeword
    is corrected on the copy, and the caller's list still holds the
    corrupted bits. *)
Example decode_st_corrupted :
  let σ : store := {[1%positive := [0; 1; 0; 0; 0; 1; 1]]} in
  let '(res, σ') := decode_st ham3 1%positive σ in
  res = Ok (3%positive, true)
  ∧ σ' !! 1%positive = Some [0; 1; 0; 0; 0; 1; 1]
  ∧ σ' !! 2%positive = Some [0; 1; 1; 0; 0; 1; 1]
  ∧ σ' !! 3%positive = Some [1; 0; 1; 1].
Proof. vm_compute. repeat split; reflexivity. Qed.

(** * Beyond bits: entries that are any integers

    Neither [encode] nor [decode] looks at the values it is given: the
    parities are sums mod 2 and the flip is [^= 1], which changes the
    parity of any integer. *)

Lemma lxor_1_mod2 (x : Z) : Z.lxor x 1 = x + 1 - 2 * (x `mod` 2).
Proof.
  pose proof (Z.add_lxor_2land x 1) as H.
  change 1 with (Z.ones 1) in H at 2. rewrite Z.land_ones in H by lia.
  change (2 ^ 1) with 2 in H. lia.
Qed.

Lemma lxor_1_ne (x : Z) : Z.lxor x 1 ≠ x.
Proof. rewrite lxor_1_mod2. pose proof (Z.mod_pos_bound x 2). lia. Qed.

Lemma check_flip_any (nn : Z) (codeword : list Z) (pos p : Z) :
  Z.of_nat (length codeword) = nn → 1 ≤ pos ≤ nn →
  check nn (flip codeword pos) p
  = (check nn codeword p + (if decide (Z.land pos p ≠ 0) then 1 else 0)) `mod` 2.
Proof.
  intros Hlen Hpos. unfold check.
  destruct (decide (Z.land pos p ≠ 0)) as [Hd|Hd].
  - unfold flip, bit at 1.
    rewrite (py_sum_insert codeword _ _ (λ i, Z.to_nat (i - 1)) _ pos).
    + fold (bit codeword pos). rewrite lxor_1_mod2.
      change (λ i, codeword !!! Z.to_nat (i - 1)) with (bit codeword).
      rewrite Zplus_mod_idemp_l.
      replace (py_sum (bit codeword <$> covered nn p) - bit codeword pos
               + (bit codeword pos + 1 - 2 * (bit codeword pos `mod` 2)))
        with (py_sum (bit codeword <$> covered nn p) + 1
              + (- (bit codeword pos `mod` 2)) * 2) by lia.
      apply Z_mod_plus_full.
    + lia.
    + apply NoDup_covered.
    + apply elem_of_covered. done.
    + done.
    + intros i [_ Hi]%elem_of_covered Hne. lia.
  - rewrite Z.add_0_r, Z.mod_mod by done. f_equal.
    apply py_sum_fmap_ext. intros i [Hland Hi]%elem_of_covered.
    apply bit_flip_ne; [lia..|]. intros ->. done.
Qed.

Lemma syndrome_of_flip_any (self : HammingCode) (codeword : list Z) (pos : Z) :
  wf self → Z.of_nat (length codeword) = n self →
  (∀ p, p ∈ parity_positions self → check (n self) codeword p = 0) →
  1 ≤ pos ≤ n self →
  syndrome_of (n self) (flip codeword pos) (parity_positions self) = pos.
Proof.
  intros Hwf Hlen Hc Hpos.
  rewrite <- (wf_locate self Hwf pos Hpos) at 2.
  unfold syndrome_of. apply py_sum_fmap_ext. intros p Hp.
  rewrite (check_flip_any (n self)), Hc by done.
  destruct (decide (Z.land pos p ≠ 0)); by simpl.
Qed.

Lemma decode_flipped_codeword (self : HammingCode) (data_bits cw : list Z) (p : Z) :
  wf self → Z.of_nat (length data_bits) = k self → encode self data_bits = Ok cw →
  1 ≤ p ≤ n self →
  decode self (flip cw p) = Ok (data_bits, true).
Proof.
  intros Hwf Hlen Henc Hp.
  destruct (encode_spec self Hwf data_bits Hlen) as (cw' & Henc' & Hl & Hdata & _ & Hchk).
  rewrite Henc in Henc'. injection Henc' as <-.
  rewrite (decode_spec self Hwf) by (by rewrite length_flip). cbv zeta.
  rewrite (syndrome_of_flip_any self) by done.
  rewrite decide_True by lia. by rewrite flip_flip, Hdata by lia.
Qed.

Lemma decode_codeword (self : HammingCode) (data_bits cw : list Z) :
  wf self → Z.of_nat (length data_bits) = k self → encode self data_bits = Ok cw →
  decode self cw = Ok (data_bits, false).
Proof.
  intros Hwf Hlen Henc.
  destruct (encode_spec self Hwf data_bits Hlen) as (cw' & Henc' & Hl & Hdata & _ & Hchk).
  rewrite Henc in Henc'. injection Henc' as <-.
  rewrite (decode_spec self Hwf) by done. cbv zeta.
  rewrite (syndrome_of_codeword self) by done.
  rewrite decide_False by (intros ?; done). by rewrite Hdata.
Qed.

(** X1: for every r >= 0 and every list of k integers, bits or not,
    [encode] returns a codeword and decoding it returns the list itself
    with corrected false. *)
Theorem round_trip_any_integers (r0 : Z) (self : HammingCode) (data_bits : list Z) :
  0 ≤ r0 → __init__ r0 = Ok self → Z.of_nat (length data_bits) = k self →
  ∃ cw, encode self data_bits = Ok cw ∧ decode self cw = Ok (data_bits, false).
Proof.
  intros Hr Hinit Hlen. pose proof (init_wf r0 self Hr Hinit) as Hwf.
  destruct (encode_spec self Hwf data_bits Hlen) as (cw & Henc & _).
  exists cw. split; [done|]. by apply decode_codeword.
Qed.

Lemma round_trip_any_integers_witness :
  ∃ cw, encode ham3 [5; -2; 0; 7] = Ok cw ∧ decode ham3 cw = Ok ([5; -2; 0; 7], false).
Proof.
  apply (round_trip_any_integers 3 ham3 [5; -2; 0; 7]).
  - lia.
  - reflexivity.
  - reflexivity.
Defined.

(** X2: for every r >= 0, every list of k integers, bits or not, and every
    position p of 1..n, decoding the codeword with the entry at p XORed
    with 1 returns the list itself with corrected true. *)
Theorem single_error_any_integers (r0 : Z) (self : HammingCode) (data_bits : list Z)
    (p : Z) :
  0 ≤ r0 → __init__ r0 = Ok self → Z.of_nat (length data_bits) = k self →
  1 ≤ p ≤ n self →
  (cw ← encode self data_bits; err ← simulate_error self cw p; decode self err)
  = Ok (data_bits, true).
Proof.
  intros Hr Hinit Hlen Hp. pose proof (init_wf r0 self Hr Hinit) as Hwf.
  destruct (encode_spec self Hwf data_bits Hlen) as (cw & Henc & Hl & _).
  rewrite Henc, bind_Ok, simulate_error_ok, bind_Ok by done.
  by apply (decode_flipped_codeword self data_bits).
Qed.

Lemma single_error_any_integers_witness :
  (cw ← encode ham3 [5; -2; 0; 7]; err ← simulate_error ham3 cw 4; decode ham3 err)
  = Ok ([5; -2; 0; 7], true).
Proof.
  apply (single_error_any_integers 3 ham3 [5; -2; 0; 7] 4).
  - lia.
  - reflexivity.
  - reflexivity.
  - simpl. lia.
Defined.

(** X3: for every r >= 0, the syndrome [decode] computes on a codeword is
    0, and on a codeword with the entry at one position p of 1..n XORed
    with 1 it is p itself. *)
Theorem syndrome_locates_error (r0 : Z) (self : HammingCode) (data_bits cw : list Z)
    (p : Z) :
  0 ≤ r0 → __init__ r0 = Ok self → Z.of_nat (length data_bits) = k self →
  encode self data_bits = Ok cw → 1 ≤ p ≤ n self →
  compute_syndrome (n self) cw (parity_positions self) 0 = Ok 0
  ∧ compute_syndrome (n self) (flip cw p) (parity_positions self) 0 = Ok p.
Proof.
  intros Hr Hinit Hlen Henc Hp. pose proof (init_wf r0 self Hr Hinit) as Hwf.
  destruct (encode_spec self Hwf data_bits Hlen) as (cw' & Henc' & Hl & _ & _ & Hchk).
  rewrite Henc in Henc'. injection Henc' as <-.
  rewrite !compute_syndrome_spec by (by rewrite ?length_flip).
  rewrite (syndrome_of_codeword self), (syndrome_of_flip_any self) by done.
  split; f_equal; lia.
Qed.

Lemma syndrome_locates_error_witness :
  compute_syndrome (n ham3) [0; 1; 1; 0; 0; 1; 1] (parity_positions ham3) 0 = Ok 0
  ∧ compute_syndrome (n ham3) (flip [0; 1; 1; 0; 0; 1; 1] 5) (parity_positions ham3) 0
    = Ok 5.
Proof.
  apply (syndrome_locates_error 3 ham3 [1; 0; 1; 1] [0; 1; 1; 0; 0; 1; 1] 5).
  - lia.
  - reflexivity.
  - reflexivity.
  - vm_compute. reflexivity.
  - simpl. lia.
Defined.

(** * Shape of the results *)

Lemma word_eq (x y : list Z) :
  length x = length y →
  (∀ i, 1 ≤ i ≤ Z.of_nat (length x) → bit x i = bit y i) → x = y.
Proof.
  intros Hlen Hbit. apply list_eq. intros m.
  destruct (decide (m < length x)%nat) as [Hm|Hm].
  - rewrite !list_lookup_lookup_total_lt by lia. f_equal.
    specialize (Hbit (Z.of_nat m + 1)). unfold bit in Hbit.
    replace (Z.to_nat (Z.of_nat m + 1 - 1)) with m in Hbit by lia.
    apply Hbit. lia.
  - rewrite !lookup_ge_None_2 by lia. done.
Qed.

Lemma word_bits (x : list Z) :
  (∀ i, 1 ≤ i ≤ Z.of_nat (length x) → is_bit (bit x i)) → Forall is_bit x.
Proof.
  intros Hbit. apply Forall_lookup. intros m v Hv.
  pose proof (lookup_lt_Some _ _ _ Hv) as Hm.
  specialize (Hbit (Z.of_nat m + 1)). unfold bit in Hbit.
  replace (Z.to_nat (Z.of_nat m + 1 - 1)) with m in Hbit by lia.
  rewrite (list_lookup_total_correct _ _ _ Hv) in Hbit. apply Hbit. lia.
Qed.

Lemma bit_of_word (x : list Z) (i : Z) :
  Forall is_bit x → 1 ≤ i ≤ Z.of_nat (length x) → is_bit (bit x i).
Proof.
  intros Hx Hi. rewrite Forall_lookup in Hx. apply (Hx (Z.to_nat (i - 1))).
  unfold bit. apply list_lookup_lookup_total_lt. lia.
Qed.

Lemma flip_bits (x : list Z) (pos : Z) :
  Forall is_bit x → 1 ≤ pos ≤ Z.of_nat (length x) → Forall is_bit (flip x pos).
Proof.
  intros Hx Hpos. apply word_bits. rewrite length_flip. intros i Hi.
  destruct (decide (i = pos)) as [->|Hne].
  - rewrite bit_flip_eq by done.
    destruct (bit_of_word x pos Hx Hpos) as [-> | ->]; [by right|by left].
  - rewrite bit_flip_ne by lia. by apply bit_of_word.
Qed.

Lemma encode_Ok_length (self : HammingCode) (data_bits cw : list Z) :
  encode self data_bits = Ok cw → Z.of_nat (length data_bits) = k self.
Proof.
  unfold encode. destruct (decide (Z.of_nat (length data_bits) ≠ k self)) as [|Hk];
    [discriminate|].
  intros _. lia.
Qed.

(** X4: for every r >= 0, every entry [encode] computes at a parity
    position is 0 or 1, whatever the data; when the data entries are bits,
    so are all n entries of the codeword. *)
Theorem encode_yields_bits (r0 : Z) (self : HammingCode) (data_bits cw : list Z) :
  0 ≤ r0 → __init__ r0 = Ok self → encode self data_bits = Ok cw →
  (∀ p, p ∈ parity_positions self → is_bit (bit cw p))
  ∧ (Forall is_bit data_bits → Forall is_bit cw).
Proof.
  intros Hr Hinit Henc. pose proof (init_wf r0 self Hr Hinit) as Hwf.
  pose proof (encode_Ok_length self data_bits cw Henc) as Hlen.
  destruct (encode_spec self Hwf data_bits Hlen) as (cw' & Henc' & Hl & _ & Hpar & _).
  rewrite Henc in Henc'. injection Henc' as <-.
  split.
  - intros p Hp. rewrite Hpar by done. apply mod2_is_bit.
  - intros Hbits. apply word_bits. intros i Hi.
    apply (encode_bits self Hwf data_bits); (done || lia).
Qed.

Lemma encode_yields_bits_witness :
  (∀ p, p ∈ parity_positions ham3 → is_bit (bit [0; 0; 5; 1; -2; 0; 7] p))
  ∧ (Forall is_bit [5; -2; 0; 7] → Forall is_bit [0; 0; 5; 1; -2; 0; 7]).
Proof.
  apply (encode_yields_bits 3 ham3 [5; -2; 0; 7] [0; 0; 5; 1; -2; 0; 7]).
  - lia.
  - reflexivity.
  - vm_compute. reflexivity.
Defined.

(** X5: for every r >= 0, on a list of n integers [decode] returns exactly
    k entries, and they are bits when the input entries are. *)
Theorem decode_yields_k_bits (r0 : Z) (self : HammingCode) (codeword : list Z) :
  0 ≤ r0 → __init__ r0 = Ok self → Z.of_nat (length codeword) = n self →
  ∃ data corrected,
    decode self codeword = Ok (data, corrected)
    ∧ Z.of_nat (length data) = k self
    ∧ (Forall is_bit codeword → Forall is_bit data).
Proof.
  intros Hr Hinit Hlen. pose proof (init_wf r0 self Hr Hinit) as Hwf.
  pose proof (syndrome_range self Hwf codeword) as Hs.
  rewrite (decode_spec self Hwf) by done. cbv zeta.
  assert (Hout : ∀ w, Z.of_nat (length w) = n self →
    Z.of_nat (length (bit w <$> data_positions (n self) (parity_positions self))) = k self
    ∧ (Forall is_bit w →
       Forall is_bit (bit w <$> data_positions (n self) (parity_positions self)))).
  { intros w Hw. split; [rewrite length_fmap; apply Hwf|].
    intros Hbits. apply Forall_fmap, Forall_forall.
    intros i [_ Hi]%elem_of_data_positions. simpl. apply bit_of_word; [done|lia]. }
  destruct (decide _) as [Hne|Heq].
  - eexists _, _. split; [done|].
    destruct (Hout (flip codeword (syndrome_of (n self) codeword (parity_positions self))))
      as [Hk Hb]; [by rewrite length_flip|].
    split; [done|]. intros Hbits. apply Hb, flip_bits; [done|lia].
  - eexists _, _. split; [done|]. by apply Hout.
Qed.

Lemma decode_yields_k_bits_witness :
  ∃ data corrected,
    decode ham3 [1; 1; 1; 1; 0; 0; 1] = Ok (data, corrected)
    ∧ Z.of_nat (length data) = k ham3
    ∧ (Forall is_bit [1; 1; 1; 1; 0; 0; 1] → Forall is_bit data).
Proof.
  apply (decode_yields_k_bits 3 ham3 [1; 1; 1; 1; 0; 0; 1]).
  - lia.
  - reflexivity.
  - reflexivity.
Defined.

Lemma encode_inj (self : HammingCode) (data1 data2 cw : list Z) :
  wf self → encode self data1 = Ok cw → encode self data2 = Ok cw → data1 = data2.
Proof.
  intros Hwf H1 H2.
  pose proof (decode_codeword self data1 cw Hwf (encode_Ok_length _ _ _ H1) H1) as D1.
  pose proof (decode_codeword self data2 cw Hwf (encode_Ok_length _ _ _ H2) H2) as D2.
  congruence.
Qed.

(** X6: for every r >= 0, [encode] is injective: two data lists with the
    same codeword are equal. *)
Theorem encode_injective (r0 : Z) (self : HammingCode) (data1 data2 cw : list Z) :
  0 ≤ r0 → __init__ r0 = Ok self →
  encode self data1 = Ok cw → encode self data2 = Ok cw → data1 = data2.
Proof.
  intros Hr Hinit H1 H2. pose proof (init_wf r0 self Hr Hinit) as Hwf.
  by apply (encode_inj self data1 data2 cw).
Qed.

Lemma encode_injective_witness : [1; 0; 1; 1] = [1; 0; 1; 1].
Proof.
  apply (encode_injective 3 ham3 [1; 0; 1; 1] [1; 0; 1; 1] [0; 1; 1; 0; 0; 1; 1]).
  - lia.
  - reflexivity.
  - vm_compute. reflexivity.
  - vm_compute. reflexivity.
Defined.



(** X8: [simulate_error] checks pos against n only, never the length of
    the list it is given: for 1 <= pos <= n, a list with fewer than pos
    entries ends in the interpreter's IndexError, and any list with at
    least pos entries, of length n or not, comes back with the entry at
    pos XORed with 1. *)
Theorem simulate_error_ignores_length (self : HammingCode) (codeword : list Z) (pos : Z) :
  1 ≤ pos ≤ n self →
  (Z.of_nat (length codeword) < pos →
     simulate_error self codeword pos = Raise (IndexError list_index_out_of_range))
  ∧ (pos ≤ Z.of_nat (length codeword) →
     simulate_error self codeword pos = Ok (flip codeword pos)).
Proof.
  intros Hpos. unfold simulate_error. rewrite decide_False by lia. cbv zeta.
  split; intros Hlen.
  - unfold xor1_item, getitem. by rewrite py_index_ge by lia.
  - apply xor1_item_flip. lia.
Qed.

Lemma simulate_error_ignores_length_witness :
  (Z.of_nat (length [1; 0]) < 5 →
     simulate_error ham3 [1; 0] 5 = Raise (IndexError list_index_out_of_range))
  ∧ (5 ≤ Z.of_nat (length [1; 0]) →
     simulate_error ham3 [1; 0] 5 = Ok (flip [1; 0] 5)).
Proof. apply (simulate_error_ignores_length ham3 [1; 0] 5). simpl. lia. Defined.

(** * Two errors *)

Lemma land_lxor_pow2 (a b j : Z) :
  0 ≤ j →
  Z.land (Z.lxor a b) (2 ^ j) ≠ 0
  ↔ ((Z.land a (2 ^ j) ≠ 0 ∧ Z.land b (2 ^ j) = 0)
     ∨ (Z.land a (2 ^ j) = 0 ∧ Z.land b (2 ^ j) ≠ 0)).
Proof.
  intros Hj. rewrite !land_pow2 by done. rewrite Z.lxor_spec.
  pose proof (pow2_pos j Hj).
  destruct (Z.testbit a j), (Z.testbit b j); simpl; split; intros; (lia || tauto).
Qed.

Lemma lxor_below_pow2 (a b m : Z) :
  0 ≤ m → 0 ≤ a < 2 ^ m → 0 ≤ b < 2 ^ m → 0 ≤ Z.lxor a b < 2 ^ m.
Proof.
  intros Hm Ha Hb.
  assert (0 ≤ Z.lxor a b) as Hnn by (apply Z.lxor_nonneg; lia).
  split; [done|].
  apply (Z.bounded_iff_bits_nonneg m); [done..|].
  intros j Hj. rewrite Z.lxor_spec.
  rewrite (proj1 (Z.bounded_iff_bits_nonneg m a Hm (proj1 Ha)) (proj2 Ha) j Hj).
  rewrite (proj1 (Z.bounded_iff_bits_nonneg m b Hm (proj1 Hb)) (proj2 Hb) j Hj).
  done.
Qed.

Lemma lxor_ne_0 (a b : Z) : a ≠ b → Z.lxor a b ≠ 0.
Proof. intros Hne Heq. by apply Hne, Z.lxor_eq. Qed.

Lemma fmap_eq_inv (f g : Z → Z) (l : list Z) (x : Z) :
  f <$> l = g <$> l → x ∈ l → f x = g x.
Proof.
  induction l as [|y l IH]; intros Heq Hx; [by apply not_elem_of_nil in Hx|].
  rewrite !fmap_cons in Heq. injection Heq as Hy Hl.
  apply elem_of_cons in Hx as [->|Hx]; [done|by apply IH].
Qed.

(** Two flipped bits of a codeword: the syndrome is the XOR of the two
    positions. *)
Lemma syndrome_of_two_flips (r0 : Z) (self : HammingCode) (cw : list Z) (p q : Z) :
  0 ≤ r0 → __init__ r0 = Ok self → Z.of_nat (length cw) = n self →
  (∀ t, t ∈ parity_positions self → check (n self) cw t = 0) →
  1 ≤ p ≤ n self → 1 ≤ q ≤ n self → p ≠ q →
  1 ≤ Z.lxor p q ≤ n self
  ∧ syndrome_of (n self) (flip (flip cw p) q) (parity_positions self) = Z.lxor p q.
Proof.
  intros Hr Hinit Hlen Hc Hp Hq Hne. pose proof (init_wf r0 self Hr Hinit) as Hwf.
  assert (Hn : n self = 2 ^ r0 - 1) by (by injection Hinit as <-).
  assert (Hs : 1 ≤ Z.lxor p q ≤ n self).
  { pose proof (lxor_below_pow2 p q r0 Hr). pose proof (lxor_ne_0 p q Hne). lia. }
  split; [done|].
  rewrite <- (wf_locate self Hwf (Z.lxor p q) Hs) at 1.
  unfold syndrome_of. apply py_sum_fmap_ext. intros t Ht.
  rewrite (check_flip_any (n self)) by (by rewrite ?length_flip).
  rewrite (check_flip_any (n self)), Hc by done.
  apply (elem_of_parity_positions r0 self t Hinit) in Ht as (j & Hj & ->).
  pose proof (land_lxor_pow2 p q j (proj1 Hj)) as Hx.
  destruct (decide (Z.land p (2 ^ j) ≠ 0)), (decide (Z.land q (2 ^ j) ≠ 0));
    destruct (decide (Z.land (Z.lxor p q) (2 ^ j) ≠ 0)) as [Hd|Hd]; simpl;
    try done; lia.
Qed.

(** X9: for every r >= 0, two errors defeat the code: when the entries at
    two different positions of a codeword are XORed with 1, [decode]
    reports corrected true, alters a third position, the XOR of the two,
    and returns k entries that are not the encoded data. *)
Theorem two_errors_miscorrected (r0 : Z) (self : HammingCode) (data_bits cw : list Z)
    (p q : Z) :
  0 ≤ r0 → __init__ r0 = Ok self → encode self data_bits = Ok cw →
  1 ≤ p ≤ n self → 1 ≤ q ≤ n self → p ≠ q →
  ∃ data,
    (err1 ← simulate_error self cw p; err2 ← simulate_error self err1 q; decode self err2)
    = Ok (data, true)
    ∧ data = bit (flip (flip (flip cw p) q) (Z.lxor p q))
               <$> data_positions (n self) (parity_positions self)
    ∧ Z.of_nat (length data) = k self
    ∧ data ≠ data_bits.
Proof.
  intros Hr Hinit Henc Hp Hq Hne. pose proof (init_wf r0 self Hr Hinit) as Hwf.
  pose proof (encode_Ok_length _ _ _ Henc) as Hk.
  destruct (encode_spec self Hwf data_bits Hk) as (cw' & Henc' & Hl & Hdata & _ & Hchk).
  rewrite Henc in Henc'. injection Henc' as <-.
  destruct (syndrome_of_two_flips r0 self cw p q) as [Hs Hsyn]; [done..|].
  set (s := Z.lxor p q) in *.
  assert (Hsp : s ≠ p).
  { unfold s. intros Heq. apply (f_equal (Z.lxor p)) in Heq.
    rewrite <- Z.lxor_assoc, !Z.lxor_nilpotent, Z.lxor_0_l in Heq. lia. }
  assert (Hsq : s ≠ q).
  { unfold s. intros Heq. apply (f_equal (λ x, Z.lxor x q)) in Heq.
    rewrite Z.lxor_assoc, !Z.lxor_nilpotent, Z.lxor_0_r in Heq. lia. }
  eexists. split; [|split; [reflexivity|split]].
  - rewrite simulate_error_ok, bind_Ok by done.
    rewrite simulate_error_ok, bind_Ok by (by rewrite ?length_flip).
    rewrite (decode_spec self Hwf) by (by rewrite !length_flip). cbv zeta.
    rewrite Hsyn. by rewrite decide_True by lia.
  - rewrite length_fmap. apply Hwf.
  - rewrite <- Hdata. intros Heq.
    set (w := flip (flip (flip cw p) q) s) in Heq.
    assert (Hw : ∀ d, d = p ∨ d = q ∨ d = s → bit w d = Z.lxor (bit cw d) 1).
    { intros d [-> | [-> | ->]]; unfold w.
      - rewrite !bit_flip_ne by lia. apply bit_flip_eq. lia.
      - rewrite bit_flip_ne, bit_flip_eq, bit_flip_ne by (rewrite ?length_flip; lia).
        done.
      - rewrite bit_flip_eq, !bit_flip_ne by (rewrite ?length_flip; lia). done. }
    assert (Hd : ∃ d, (d = p ∨ d = q ∨ d = s) ∧ 1 ≤ d ≤ n self
                  ∧ d ∉ parity_positions self).
    { destruct (decide (p ∈ parity_positions self)) as [Hpp|]; [|exists p; tauto].
      destruct (decide (q ∈ parity_positions self)) as [Hqp|]; [|exists q; tauto].
      exists s. split; [tauto|split; [done|]]. intros Hsp'.
      pose proof (wf_disjoint self Hwf s p Hsp' Hpp Hsp) as Hland.
      pose proof (wf_disjoint self Hwf q p Hqp Hpp (not_eq_sym Hne)) as Hqland.
      apply (elem_of_parity_positions r0 self p Hinit) in Hpp as (j & Hj & Hpj).
      destruct (land_lxor_pow2 p q j (proj1 Hj)) as [_ Hx].
      rewrite <- Hpj in Hx. apply Hx; [|done].
      left. split; [|done]. rewrite Z.land_diag. lia. }
    destruct Hd as (d & Hcase & Hrange & Hnp).
    apply (fmap_eq_inv _ _ _ d) in Heq; [|by apply elem_of_data_positions].
    rewrite Hw in Heq by done. by apply lxor_1_ne in Heq.
Qed.

Lemma two_errors_miscorrected_witness :
  ∃ data,
    (err1 ← simulate_error ham3 [0; 1; 1; 0; 0; 1; 1] 1;
     err2 ← simulate_error ham3 err1 2; decode ham3 err2)
    = Ok (data, true)
    ∧ data = bit (flip (flip (flip [0; 1; 1; 0; 0; 1; 1] 1) 2) (Z.lxor 1 2))
               <$> data_positions (n ham3) (parity_positions ham3)
    ∧ Z.of_nat (length data) = k ham3
    ∧ data ≠ [1; 0; 1; 1].
Proof.
  apply (two_errors_miscorrected 3 ham3 [1; 0; 1; 1] [0; 1; 1; 0; 0; 1; 1] 1 2).
  - lia.
  - reflexivity.
  - vm_compute. reflexivity.
  - simpl. lia.
  - simpl. lia.
  - lia.
Defined.

(** * Every word is a codeword or one flip away from one *)

(** A sum of chosen powers of two has exactly the chosen bits. *)
Lemma pow2_subset_bits (c : Z → Z) (m : nat) :
  let s := py_sum ((λ p, if decide (c p ≠ 0) then p else 0)
                     <$> ((λ i, 2 ^ i) <$> seqZ 0 (Z.of_nat m))) in
  0 ≤ s < 2 ^ Z.of_nat m
  ∧ ∀ j, 0 ≤ j < Z.of_nat m → Z.testbit s j = bool_decide (c (2 ^ j) ≠ 0).
Proof.
  induction m as [|m IH]; cbv zeta.
  { split; [done|]. intros j Hj. lia. }
  cbv zeta in IH. destruct IH as [Hs IH].
  rewrite seqZ_S, !fmap_app, py_sum_app, Z.add_0_l.
  set (s := py_sum ((λ p, if decide (c p ≠ 0) then p else 0)
                      <$> ((λ i, 2 ^ i) <$> seqZ 0 (Z.of_nat m)))) in *.
  simpl. rewrite py_sum_cons, py_sum_nil, Z.add_0_r.
  pose proof (pow2_pos (Z.of_nat m) (Nat2Z.is_nonneg m)) as Hpos.
  rewrite Nat2Z.inj_succ, <- Z.add_1_r, Z.pow_add_r, Z.pow_1_r by lia.
  set (b := if decide (c (2 ^ Z.of_nat m) ≠ 0) then 2 ^ Z.of_nat m else 0).
  assert (Hb : b = Z.b2z (bool_decide (c (2 ^ Z.of_nat m) ≠ 0)) * 2 ^ Z.of_nat m).
  { unfold b. destruct (decide _) as [Hd|Hd].
    - rewrite bool_decide_eq_true_2 by done. simpl. lia.
    - rewrite bool_decide_eq_false_2 by done. simpl. lia. }
  split.
  - unfold b. destruct (decide _); lia.
  - intros j Hj. destruct (decide (j = Z.of_nat m)) as [->|Hne].
    + apply (Z.testbit_unique _ _ _ s 0); [done|]. rewrite Hb. lia.
    + rewrite <- IH by lia.
      rewrite <- (Z.mod_pow2_bits_low (s + b) (Z.of_nat m) j) by lia.
      f_equal. rewrite Hb, Z_mod_plus_full. apply Z.mod_small. done.
Qed.

(** The bits of the syndrome are the failed checks. *)
Lemma syndrome_bit (r0 : Z) (self : HammingCode) (x : list Z) (p : Z) :
  0 ≤ r0 → __init__ r0 = Ok self → p ∈ parity_positions self →
  Z.land (syndrome_of (n self) x (parity_positions self)) p ≠ 0
  ↔ check (n self) x p ≠ 0.
Proof.
  intros Hr Hinit Hp.
  assert (Hpp : parity_positions self = (λ i, 2 ^ i) <$> seqZ 0 (Z.of_nat (Z.to_nat r0))).
  { injection Hinit as <-. simpl. unfold range. by rewrite Z.sub_0_r, Z2Nat.id. }
  apply (elem_of_parity_positions r0 self p Hinit) in Hp as (j & Hj & ->).
  unfold syndrome_of. rewrite Hpp.
  destruct (pow2_subset_bits (check (n self) x) (Z.to_nat r0)) as [_ Hbits].
  rewrite land_pow2_nonzero, Hbits by lia.
  apply bool_decide_eq_true.
Qed.

Lemma check_is_bit (nn : Z) (x : list Z) (p : Z) : is_bit (check nn x p).
Proof. apply mod2_is_bit. Qed.

(** What [decode] extracts the data from has all its checks at 0. *)
Lemma corrected_checks (r0 : Z) (self : HammingCode) (x : list Z) (p : Z) :
  0 ≤ r0 → __init__ r0 = Ok self → Z.of_nat (length x) = n self →
  p ∈ parity_positions self →
  let s := syndrome_of (n self) x (parity_positions self) in
  check (n self) (if decide (s ≠ 0) then flip x s else x) p = 0.
Proof.
  intros Hr Hinit Hlen Hp s. pose proof (init_wf r0 self Hr Hinit) as Hwf.
  pose proof (syndrome_range self Hwf x) as Hs. fold s in Hs.
  pose proof (syndrome_bit r0 self x p Hr Hinit Hp) as Hbit. fold s in Hbit.
  destruct (decide (s ≠ 0)) as [Hne|Heq].
  - rewrite (check_flip_any (n self)) by (done || lia).
    destruct (check_is_bit (n self) x p) as [Hc|Hc];
      destruct (decide (Z.land s p ≠ 0)) as [Hd|Hd]; rewrite Hc; try done.
    + apply Hbit in Hd. lia.
    + exfalso. apply Hd, Hbit. lia.
  - assert (s = 0) as Hs0 by lia. rewrite Hs0, Z.land_0_l in Hbit.
    destruct (check_is_bit (n self) x p) as [Hc|Hc]; [done|].
    exfalso. apply (proj2 Hbit); [lia|done].
Qed.

(** A word of bits with all checks at 0 is the codeword of the data it
    carries. *)
Lemma codeword_unique (self : HammingCode) (x : list Z) :
  wf self → Z.of_nat (length x) = n self → Forall is_bit x →
  (∀ p, p ∈ parity_positions self → check (n self) x p = 0) →
  encode self (bit x <$> data_positions (n self) (parity_positions self)) = Ok x.
Proof.
  intros Hwf Hlen Hbits Hchk.
  destruct (encode_spec self Hwf
              (bit x <$> data_positions (n self) (parity_positions self)))
    as (y & Henc & Hl & Hdata & Hpar & _).
  { rewrite length_fmap. apply Hwf. }
  rewrite Henc. f_equal. apply word_eq; [lia|].
  intros i Hi.
  assert (Hdpos : ∀ d, d ∈ data_positions (n self) (parity_positions self) →
                       bit y d = bit x d) by (intros d; by apply fmap_eq_inv).
  destruct (decide (i ∈ parity_positions self)) as [Hp|Hp];
    [|apply Hdpos, elem_of_data_positions; split; [done|lia]].
  rewrite Hpar by done.
  rewrite (py_sum_fmap_ext _ (bit x)).
  2:{ intros d [Hne [Hland Hd]%elem_of_covered]%list_elem_of_filter.
      apply Hdpos, elem_of_data_positions. split; [|done].
      intros Hdp. apply Hland. by apply (wf_disjoint self Hwf). }
  specialize (Hchk i Hp). unfold check in Hchk.
  rewrite (py_sum_split (bit x) _ i) in Hchk
    by (apply NoDup_covered || by apply parity_covers_itself).
  assert (is_bit (bit x i)) as [Hb|Hb] by (apply bit_of_word; [done|lia]);
    rewrite Hb in Hchk |- *.
  - by rewrite Z.add_0_l in Hchk.
  - set (t := py_sum (bit x <$> filter (λ d, d ≠ i) (covered (n self) i))) in *.
    clearbody t. clear -Hchk. Z.div_mod_to_equations. lia.
Qed.

(** X10: for every r >= 0 and every list x of n bits, the data [decode]
    returns encodes to x itself when corrected is false, and to x with
    exactly one entry inverted, at the position of the syndrome, when
    corrected is true: every word is a codeword or one flip away from
    one. *)
Theorem decode_then_encode (r0 : Z) (self : HammingCode) (x : list Z) :
  0 ≤ r0 → __init__ r0 = Ok self → Z.of_nat (length x) = n self → Forall is_bit x →
  ∃ data corrected y,
    decode self x = Ok (data, corrected)
    ∧ encode self data = Ok y
    ∧ (corrected = false → y = x)
    ∧ (corrected = true →
         ∃ s, compute_syndrome (n self) x (parity_positions self) 0 = Ok s
              ∧ 1 ≤ s ≤ n self ∧ y = flip x s ∧ simulate_error self y s = Ok x).
Proof.
  intros Hr Hinit Hlen Hbits. pose proof (init_wf r0 self Hr Hinit) as Hwf.
  pose proof (syndrome_range self Hwf x) as Hs.
  pose proof (λ p Hp, corrected_checks r0 self x p Hr Hinit Hlen Hp) as Hchk.
  cbv zeta in Hchk.
  rewrite (decode_spec self Hwf) by done. cbv zeta.
  set (s := syndrome_of (n self) x (parity_positions self)) in *.
  destruct (decide (s ≠ 0)) as [Hne|Heq].
  - eexists _, true, (flip x s). split; [done|].
    split; [|split; [done|]].
    + apply codeword_unique; [done|by rewrite length_flip| |done].
      apply flip_bits; [done|lia].
    + intros _. exists s. split; [|split; [lia|split; [done|]]].
      * rewrite compute_syndrome_spec by done. f_equal; fold s; lia.
      * rewrite simulate_error_ok by (rewrite ?length_flip; (done || lia)).
        f_equal. apply flip_flip. lia.
  - eexists _, false, x. split; [done|].
    split; [by apply codeword_unique|]. split; [done|]. discriminate.
Qed.

Lemma decode_then_encode_witness :
  ∃ data corrected y,
    decode ham3 [1; 1; 1; 1; 0; 0; 1] = Ok (data, corrected)
    ∧ encode ham3 data = Ok y
    ∧ (corrected = false → y = [1; 1; 1; 1; 0; 0; 1])
    ∧ (corrected = true →
         ∃ s, compute_syndrome (n ham3) [1; 1; 1; 1; 0; 0; 1] (parity_positions ham3) 0
              = Ok s
              ∧ 1 ≤ s ≤ n ham3 ∧ y = flip [1; 1; 1; 1; 0; 0; 1] s
              ∧ simulate_error ham3 y s = Ok [1; 1; 1; 1; 0; 0; 1]).
Proof.
  apply (decode_then_encode 3 ham3 [1; 1; 1; 1; 0; 0; 1]).
  - lia.
  - reflexivity.
  - reflexivity.
  - literal_bits.
Defined.

(** A word of bits [decode] leaves uncorrected is the codeword of the data
    [decode] returns. *)
Lemma uncorrected_is_codeword (r0 : Z) (self : HammingCode) (x data : list Z) :
  0 ≤ r0 → __init__ r0 = Ok self → Z.of_nat (length x) = n self → Forall is_bit x →
  decode self x = Ok (data, false) → encode self data = Ok x.
Proof.
  intros Hr Hinit Hlen Hbits. pose proof (init_wf r0 self Hr Hinit) as Hwf.
  pose proof (λ p Hp, corrected_checks r0 self x p Hr Hinit Hlen Hp) as Hchk.
  cbv zeta in Hchk.
  rewrite (decode_spec self Hwf) by done. cbv zeta.
  destruct (decide _) as [Hne|Heq]; [discriminate|].
  intros [= <-]. by apply codeword_unique.
Qed.

(** X11: for every r >= 0 and every list x of n bits, [decode] reports
    corrected false exactly when x is a codeword, the result of [encode]
    on some data. *)
Theorem uncorrected_iff_codeword (r0 : Z) (self : HammingCode) (x : list Z) :
  0 ≤ r0 → __init__ r0 = Ok self → Z.of_nat (length x) = n self → Forall is_bit x →
  (∃ data, decode self x = Ok (data, false)) ↔ (∃ data, encode self data = Ok x).
Proof.
  intros Hr Hinit Hlen Hbits. pose proof (init_wf r0 self Hr Hinit) as Hwf.
  split.
  - intros [data Hdec]. exists data.
    by apply (uncorrected_is_codeword r0 self x data).
  - intros [data Henc]. exists data.
    apply decode_codeword; [done| |done]. by apply (encode_Ok_length self data x).
Qed.

Lemma uncorrected_iff_codeword_witness :
  (∃ data, decode ham3 [0; 1; 1; 0; 0; 1; 1] = Ok (data, false))
  ↔ (∃ data, encode ham3 data = Ok [0; 1; 1; 0; 0; 1; 1]).
Proof.
  apply (uncorrected_iff_codeword 3 ham3 [0; 1; 1; 0; 0; 1; 1]).
  - lia.
  - reflexivity.
  - reflexivity.
  - literal_bits.
Defined.

(** * The constructor's instances *)

Lemma count_parity_positions (nn : Z) (pp : list Z) :
  NoDup pp → (∀ p, p ∈ pp → 1 ≤ p ≤ nn) →
  length (filter (λ i, i ∈ pp) (range 1 (nn + 1))) = length pp.
Proof.
  intros Hnd Hr. apply Permutation_length.
  apply NoDup_Permutation; [apply NoDup_filter, NoDup_range|done|].
  intros p. rewrite list_elem_of_filter, elem_of_range.
  split; [tauto|]. intros Hp. specialize (Hr p Hp). split; [done|lia].
Qed.

(** X12: for every r >= 0 the instance has r parity positions, all
    different, all within 1..n, adding up to n; the positions of 1..n
    that are not parity positions are exactly k, and k is not negative. *)
Theorem instance_invariants (r0 : Z) (self : HammingCode) :
  0 ≤ r0 → __init__ r0 = Ok self →
  Z.of_nat (length (parity_positions self)) = r0
  ∧ NoDup (parity_positions self)
  ∧ (∀ p, p ∈ parity_positions self → 1 ≤ p ≤ n self)
  ∧ py_sum (parity_positions self) = n self
  ∧ Z.of_nat (length (data_positions (n self) (parity_positions self))) = k self
  ∧ 0 ≤ k self
  ∧ n self = k self + r0.
Proof.
  intros Hr Hinit. pose proof (init_wf r0 self Hr Hinit) as Hwf.
  pose proof (wf_k self Hwf) as Hk.
  assert (Hlen : Z.of_nat (length (parity_positions self)) = r0).
  { injection Hinit as <-. simpl. rewrite length_fmap, length_range. lia. }
  split; [done|]. split; [apply Hwf|]. split; [apply Hwf|]. split; [apply Hwf|].
  split; [done|]. split; [lia|].
  injection Hinit as <-. simpl. lia.
Qed.

Lemma instance_invariants_witness :
  Z.of_nat (length (parity_positions ham3)) = 3
  ∧ NoDup (parity_positions ham3)
  ∧ (∀ p, p ∈ parity_positions ham3 → 1 ≤ p ≤ n ham3)
  ∧ py_sum (parity_positions ham3) = n ham3
  ∧ Z.of_nat (length (data_positions (n ham3) (parity_positions ham3))) = k ham3
  ∧ 0 ≤ k ham3
  ∧ n ham3 = k ham3 + 3.
Proof.
  apply (instance_invariants 3 ham3).
  - lia.
  - reflexivity.
Defined.

(** * The visualization methods *)

Lemma color_of_position (pp : list Z) (pos : Z) :
  (if decide ((if decide (pos ∈ pp) then "Parity" else "Data") = "Parity")
   then "red" else "blue")
  = if decide (pos ∈ pp) then "red" else "blue".
Proof. destruct (decide (pos ∈ pp)); done. Qed.

Lemma count_colors (pp l : list Z) :
  length (filter (λ c, c = "red")
            ((λ pos, if decide (pos ∈ pp) then "red" else "blue") <$> l))
  = length (filter (λ i, i ∈ pp) l)
  ∧ length (filter (λ c, c = "blue")
              ((λ pos, if decide (pos ∈ pp) then "red" else "blue") <$> l))
    = length (filter (λ i, i ∉ pp) l).
Proof.
  induction l as [|x l [IH1 IH2]]; [done|].
  rewrite fmap_cons. destruct (decide (x ∈ pp)) as [Hx|Hx].
  - rewrite (filter_cons_True (λ c, c = "red")) by done.
    rewrite (filter_cons_False (λ c, c = "blue")) by done.
    rewrite (filter_cons_True (λ i, i ∈ pp)) by done.
    rewrite (filter_cons_False (λ i, i ∉ pp)) by (intros ?; done).
    simpl. by rewrite IH1, IH2.
  - rewrite (filter_cons_False (λ c, c = "red")) by done.
    rewrite (filter_cons_True (λ c, c = "blue")) by done.
    rewrite (filter_cons_False (λ i, i ∈ pp)) by done.
    rewrite (filter_cons_True (λ i, i ∉ pp)) by done.
    simpl. by rewrite IH1, IH2.
Qed.

(** X13: for every r >= 0, [plot_structure] issues one bar chart over the
    positions 1..n with n bars of height 1 and n colours: the bar of a
    position is red when the position is a parity position and blue
    otherwise, so r bars are red and k are blue; the title carries n and
    k. *)
Theorem plot_structure_colors (r0 : Z) (self : HammingCode) :
  0 ≤ r0 → __init__ r0 = Ok self →
  ∃ colors,
    plot_structure self
    = [ plt_figure;
        plt_bar (range 1 (n self + 1)) (replicate (Z.to_nat (n self)) 1) colors;
        plt_xticks (range 1 (n self + 1));
        plt_xlabel (Literal "Bit Position");
        plt_title (Hamming_n_k_Structure (2 ^ r0 - 1) (2 ^ r0 - 1 - r0));
        plt_show ]
    ∧ Z.of_nat (length colors) = n self
    ∧ (∀ i, 1 ≤ i ≤ n self →
         colors !! Z.to_nat (i - 1)
         = Some (if decide (i ∈ parity_positions self) then "red" else "blue"))
    ∧ Z.of_nat (length (filter (λ c, c = "red") colors)) = r0
    ∧ Z.of_nat (length (filter (λ c, c = "blue") colors)) = k self.
Proof.
  intros Hr Hinit. pose proof (init_wf r0 self Hr Hinit) as Hwf.
  pose proof (wf_n self Hwf) as Hn.
  assert (Hlen : Z.of_nat (length (parity_positions self)) = r0).
  { injection Hinit as <-. simpl. rewrite length_fmap, length_range. lia. }
  exists ((λ pos, if decide (pos ∈ parity_positions self) then "red" else "blue")
            <$> range 1 (n self + 1)).
  split; [|split; [|split; [|split]]].
  - unfold plot_structure. cbv zeta. rewrite <- list_fmap_compose.
    assert (Hnk : n self = 2 ^ r0 - 1 ∧ k self = 2 ^ r0 - 1 - r0)
      by (by injection Hinit as <-).
    destruct Hnk as [-> ->]. do 2 f_equal. f_equal.
    apply list_fmap_ext. intros _ pos _. apply color_of_position.
  - rewrite length_fmap, length_range. lia.
  - intros i Hi. rewrite list_lookup_fmap. unfold range.
    rewrite lookup_seqZ_lt by lia. simpl.
    by replace (1 + Z.of_nat (Z.to_nat (i - 1))) with i by lia.
  - rewrite (proj1 (count_colors _ _)).
    rewrite count_parity_positions by apply Hwf. done.
  - rewrite (proj2 (count_colors _ _)). apply Hwf.
Qed.

Lemma plot_structure_colors_witness :
  ∃ colors,
    plot_structure ham3
    = [ plt_figure;
        plt_bar (range 1 (n ham3 + 1)) (replicate (Z.to_nat (n ham3)) 1) colors;
        plt_xticks (range 1 (n ham3 + 1));
        plt_xlabel (Literal "Bit Position");
        plt_title (Hamming_n_k_Structure (2 ^ 3 - 1) (2 ^ 3 - 1 - 3));
        plt_show ]
    ∧ Z.of_nat (length colors) = n ham3
    ∧ (∀ i, 1 ≤ i ≤ n ham3 →
         colors !! Z.to_nat (i - 1)
         = Some (if decide (i ∈ parity_positions ham3) then "red" else "blue"))
    ∧ Z.of_nat (length (filter (λ c, c = "red") colors)) = 3
    ∧ Z.of_nat (length (filter (λ c, c = "blue") colors)) = k ham3.
Proof.
  apply (plot_structure_colors 3 ham3).
  - lia.
  - reflexivity.
Defined.

Example plot_structure_3 :
  plot_structure ham3
  = [ plt_figure;
      plt_bar [1; 2; 3; 4; 5; 6; 7] [1; 1; 1; 1; 1; 1; 1]
        ["red"; "red"; "blue"; "red"; "blue"; "blue"; "blue"];
      plt_xticks [1; 2; 3; 4; 5; 6; 7];
      plt_xlabel (Literal "Bit Position");
      plt_title (Hamming_n_k_Structure 7 4);
      plt_show ].
Proof. vm_compute. reflexivity. Qed.

Lemma error_simulation_loop_spec (self : HammingCode) (data_bits orig positions todo : list Z) :
  wf self → Z.of_nat (length data_bits) = k self → encode self data_bits = Ok orig →
  (∀ i, i ∈ todo → 1 ≤ i ≤ n self) →
  error_simulation_loop self orig positions todo
  = (mjoin ((λ i, error_figure positions orig (flip orig i) orig i) <$> todo), Ok ()).
Proof.
  intros Hwf Hk Henc.
  destruct (encode_spec self Hwf data_bits Hk) as (cw & Henc' & Hl & _).
  rewrite Henc in Henc'. injection Henc' as <-.
  induction todo as [|i todo IH]; intros Htodo; [done|].
  pose proof (Htodo i (list_elem_of_here _ _)) as Hi.
  simpl error_simulation_loop.
  rewrite simulate_error_ok by done.
  rewrite (decode_flipped_codeword self data_bits orig i) by done.
  rewrite Henc, IH by (intros i' ?; apply Htodo; by right).
  done.
Qed.

(** X14: for every r >= 0 and every list of k integers,
    [plot_error_simulation] raises nothing and draws n figures, one per
    position i of 1..n in increasing order; in the figure of i the
    corrupted codeword is the original with the entry at i XORed with 1
    and the corrected codeword is the original codeword.  With another
    number of data entries it raises the length error of [encode] before
    drawing anything. *)
Theorem plot_error_simulation_figures (r0 : Z) (self : HammingCode) (data_bits : list Z) :
  0 ≤ r0 → __init__ r0 = Ok self →
  (Z.of_nat (length data_bits) ≠ k self →
     plot_error_simulation self data_bits
     = ([], Raise (ValueError (Data_length_must_be (k self)))))
  ∧ (Z.of_nat (length data_bits) = k self →
     ∃ orig,
       encode self data_bits = Ok orig
       ∧ plot_error_simulation self data_bits
         = (mjoin ((λ i, error_figure (range 1 (n self + 1)) orig (flip orig i) orig i)
                     <$> range 1 (n self + 1)),
            Ok ())).
Proof.
  intros Hr Hinit. pose proof (init_wf r0 self Hr Hinit) as Hwf.
  unfold plot_error_simulation. split; intros Hk.
  - unfold encode. by rewrite decide_True.
  - destruct (encode_spec self Hwf data_bits Hk) as (orig & Henc & _).
    exists orig. split; [done|]. rewrite Henc. cbv zeta.
    apply (error_simulation_loop_spec self data_bits); [done..|].
    intros i Hi%elem_of_range. lia.
Qed.

Lemma plot_error_simulation_figures_witness :
  (Z.of_nat (length [1; 0; 1; 1]) ≠ k ham3 →
     plot_error_simulation ham3 [1; 0; 1; 1]
     = ([], Raise (ValueError (Data_length_must_be (k ham3)))))
  ∧ (Z.of_nat (length [1; 0; 1; 1]) = k ham3 →
     ∃ orig,
       encode ham3 [1; 0; 1; 1] = Ok orig
       ∧ plot_error_simulation ham3 [1; 0; 1; 1]
         = (mjoin ((λ i, error_figure (range 1 (n ham3 + 1)) orig (flip orig i) orig i)
                     <$> range 1 (n ham3 + 1)),
            Ok ())).
Proof.
  apply (plot_error_simulation_figures 3 ham3 [1; 0; 1; 1]).
  - lia.
  - reflexivity.
Defined.

(** * Separate calls in the store *)

(** X15: two calls of [simulate_error] on the same list of length n, at
    positions p and q of 1..n, return two different new objects; after
    both calls the argument still holds its content, the first result
    still holds the first flip, and the second result holds the flip of
    the unchanged argument. *)
Theorem simulate_error_results_do_not_alias (self : HammingCode) (σ : store) (l : loc)
    (codeword : list Z) (p q : Z) :
  σ !! l = Some codeword → Z.of_nat (length codeword) = n self →
  1 ≤ p ≤ n self → 1 ≤ q ≤ n self →
  ∃ l1 σ1 l2 σ2,
    simulate_error_st self l p σ = (Ok l1, σ1)
    ∧ simulate_error_st self l q σ1 = (Ok l2, σ2)
    ∧ l1 ≠ l ∧ l2 ≠ l ∧ l1 ≠ l2
    ∧ σ2 !! l = Some codeword
    ∧ σ2 !! l1 = Some (flip codeword p)
    ∧ σ2 !! l2 = Some (flip codeword q).
Proof.
  intros Hl Hlen Hp Hq.
  set (l1 := fresh (dom σ)). set (σ1 := <[l1:=flip codeword p]> σ).
  assert (Hne1 : l1 ≠ l) by (by apply (fresh_ne σ l codeword)).
  assert (Hl1 : σ1 !! l = Some codeword) by (unfold σ1; by rewrite lookup_insert_ne).
  assert (Hl1' : σ1 !! l1 = Some (flip codeword p)) by apply lookup_insert_eq.
  set (l2 := fresh (dom σ1)). set (σ2 := <[l2:=flip codeword q]> σ1).
  assert (Hne2 : l2 ≠ l) by (by apply (fresh_ne σ1 l codeword)).
  assert (Hne12 : l2 ≠ l1) by (by apply (fresh_ne σ1 l1 (flip codeword p))).
  exists l1, σ1, l2, σ2.
  split; [by apply simulate_error_st_spec|].
  split; [by apply simulate_error_st_spec|].
  split; [done|]. split; [done|]. split; [done|].
  unfold σ2. rewrite !lookup_insert_ne by done. rewrite lookup_insert_eq. done.
Qed.

Lemma simulate_error_results_do_not_alias_witness :
  let σ : store := {[1%positive := [0; 1; 1; 0; 0; 1; 1]]} in
  ∃ l1 σ1 l2 σ2,
    simulate_error_st ham3 1%positive 3 σ = (Ok l1, σ1)
    ∧ simulate_error_st ham3 1%positive 4 σ1 = (Ok l2, σ2)
    ∧ l1 ≠ 1%positive ∧ l2 ≠ 1%positive ∧ l1 ≠ l2
    ∧ σ2 !! 1%positive = Some [0; 1; 1; 0; 0; 1; 1]
    ∧ σ2 !! l1 = Some (flip [0; 1; 1; 0; 0; 1; 1] 3)
    ∧ σ2 !! l2 = Some (flip [0; 1; 1; 0; 0; 1; 1] 4).
Proof.
  intros σ.
  apply (simulate_error_results_do_not_alias ham3 σ 1%positive [0; 1; 1; 0; 0; 1; 1] 3 4).
  - reflexivity.
  - reflexivity.
  - simpl. lia.
  - simpl. lia.
Defined.
